(** * QR-Code-FH: canonical query, HMAC signature and survey URL

    Shallow embedding of [app.py]: the three utilities [canon_query],
    [make_sig], [build_url] and the top-level script that assembles the
    parameters, signs them and builds the final URL.

    Python values are modelled as the interpreter has them:
    - a [str] is a sequence of Unicode code points ([list N]);
    - [bytes] is a sequence of octets ([list N], each below 256);
    - a [dict] keeps its entries in insertion order, with unique keys
      (an association list updated in place or extended at the end);
    - an exception is an explicit outcome ([Raise]) of a [result]. *)

From Stdlib Require Import NArith ZArith String Ascii List Lia DecimalString.
From stdpp Require Import base list sorting.
Import ListNotations.

Local Open Scope N_scope.

(** ** Outcomes of a call: a value or an exception *)

Inductive exn : Type :=
  | UnicodeEncodeError.

Inductive result (A : Type) : Type :=
  | Ok (a : A)
  | Raise (e : exn).
Arguments Ok {A} a.
Arguments Raise {A} e.

Definition bind {A B} (r : result A) (f : A -> result B) : result B :=
  match r with
  | Ok a => f a
  | Raise e => Raise e
  end.

Notation "'let*' x ':=' r 'in' k" := (bind r (fun x => k))
  (at level 10, x name, r at level 100, k at level 200).

Fixpoint mapM {A B} (f : A -> result B) (l : list A) : result (list B) :=
  match l with
  | [] => Ok []
  | a :: l' => let* b := f a in let* bs := mapM f l' in Ok (b :: bs)
  end.

(** ** Python strings *)

Module Py.

(** A [str] is a sequence of code points, [bytes] a sequence of octets. *)
Definition str := list N.
Definition bytes := list N.

(** A string literal of the source, read as its code points (the literals
    used here are ASCII). *)
Definition lit (s : string) : str := map N_of_ascii (list_ascii_of_string s).
Arguments lit : simpl never.

(** What a [str] object can hold: code points up to U+10FFFF. *)
Definition is_codepoint (c : N) : bool := c <? 0x110000.

(** Surrogates are code points but have no UTF-8 encoding. *)
Definition is_surrogate (c : N) : bool := (0xD800 <=? c) && (c <=? 0xDFFF).

(** [a < b], [a == b], [a > b] on strings: lexicographic on code points,
    a proper prefix being smaller. *)
Fixpoint str_compare (a b : str) : comparison :=
  match a, b with
  | [], [] => Eq
  | [], _ :: _ => Lt
  | _ :: _, [] => Gt
  | x :: a', y :: b' =>
      match N.compare x y with
      | Eq => str_compare a' b'
      | c => c
      end
  end.

(** Comparison of 2-tuples of strings: first components first. *)
Definition tuple_compare (s t : str * str) : comparison :=
  match str_compare (fst s) (fst t) with
  | Eq => str_compare (snd s) (snd t)
  | c => c
  end.

Definition tuple_leb (s t : str * str) : bool :=
  match tuple_compare s t with
  | Gt => false
  | _ => true
  end.

Definition tuple_le (s t : str * str) : Prop := tuple_leb s t = true.

#[export] Instance tuple_le_dec : RelDecision tuple_le.
Proof. intros s t. unfold tuple_le. apply _. Defined.

(** [sorted(iterable)] on tuples of strings: ascending, by [<] on tuples. *)
Definition sorted (l : list (str * str)) : list (str * str) :=
  merge_sort tuple_le l.

(** [sep.join(parts)] *)
Fixpoint join (sep : str) (parts : list str) : str :=
  match parts with
  | [] => []
  | [x] => x
  | x :: rest => x ++ sep ++ join sep rest
  end.

(** [str.isspace] on one code point: the characters [str.strip()] removes. *)
Definition isspace (c : N) : bool :=
  ((0x09 <=? c) && (c <=? 0x0D)) || ((0x1C <=? c) && (c <=? 0x20))
  || (c =? 0x85) || (c =? 0xA0) || (c =? 0x1680)
  || ((0x2000 <=? c) && (c <=? 0x200A))
  || (c =? 0x2028) || (c =? 0x2029) || (c =? 0x202F) || (c =? 0x205F)
  || (c =? 0x3000).

(** Dropping from the left, then from the right, the characters that
    satisfy [p]. *)
Fixpoint lstrip_by (p : N -> bool) (s : str) : str :=
  match s with
  | [] => []
  | c :: s' => if p c then lstrip_by p s' else s
  end.

Definition rstrip_by (p : N -> bool) (s : str) : str :=
  rev (lstrip_by p (rev s)).

(** [s.strip()] *)
Definition strip (s : str) : str := rstrip_by isspace (lstrip_by isspace s).

(** [s.rstrip(chars)] *)
Definition rstrip (chars : str) (s : str) : str :=
  rstrip_by (fun c => existsb (N.eqb c) chars) s.

(** [s.replace(old, new)] for one-character [old] and [new]. *)
Definition replace_char (old new : N) (s : str) : str :=
  map (fun c => if c =? old then new else c) s.

(** [c in s] *)
Definition contains (c : N) (s : str) : bool := existsb (N.eqb c) s.

(** UTF-8 encoding of one code point (strict error handler). *)
Definition utf8_cp (c : N) : result bytes :=
  if c <? 0x80 then Ok [c]
  else if c <? 0x800 then Ok [0xC0 + c / 64; 0x80 + c mod 64]
  else if c <? 0x10000 then
    if is_surrogate c then Raise UnicodeEncodeError
    else Ok [0xE0 + c / 4096; 0x80 + (c / 64) mod 64; 0x80 + c mod 64]
  else if is_codepoint c then
    Ok [0xF0 + c / 262144; 0x80 + (c / 4096) mod 64;
        0x80 + (c / 64) mod 64; 0x80 + c mod 64]
  else Raise UnicodeEncodeError.

(** [s.encode("utf-8")] *)
Definition encode_utf8 (s : str) : result bytes :=
  let* chunks := mapM utf8_cp s in Ok (concat chunks).

(** Decimal digits of a number, as text. *)
Definition str_of_N (n : N) : str := lit (NilZero.string_of_uint (N.to_uint n)).

(** [format(n, "0{w}d")]: decimal, zero-padded on the left to width [w]. *)
Definition zfill (w : nat) (s : str) : str :=
  repeat 0x30 (w - length s)%nat ++ s.

(** The values a parameter can take: text, an integer or a boolean. *)
Inductive value : Type :=
  | VStr (s : str)
  | VInt (z : Z)
  | VBool (b : bool).

(** [str(v)] *)
Definition str_of (v : value) : str :=
  match v with
  | VStr s => s
  | VInt z => lit (NilZero.string_of_int (Z.to_int z))
  | VBool true => lit "True"
  | VBool false => lit "False"
  end.

(** *** Dictionaries with text keys *)

Definition dict := list (str * value).

Definition str_eqb (a b : str) : bool :=
  match str_compare a b with
  | Eq => true
  | _ => false
  end.

(** [d.get(k)] *)
Fixpoint dict_get (d : dict) (k : str) : option value :=
  match d with
  | [] => None
  | (k', v) :: d' => if str_eqb k' k then Some v else dict_get d' k
  end.

(** [d[k] = v]: the entry keeps its place when the key is present and is
    added at the end otherwise. *)
Fixpoint dict_set (d : dict) (k : str) (v : value) : dict :=
  match d with
  | [] => [(k, v)]
  | (k', v') :: d' =>
      if str_eqb k' k then (k', v) :: d' else (k', v') :: dict_set d' k v
  end.

(** [d.pop(k, None)], as a verifier would drop an entry. *)
Fixpoint dict_del (d : dict) (k : str) : dict :=
  match d with
  | [] => []
  | (k', v') :: d' =>
      if str_eqb k' k then d' else (k', v') :: dict_del d' k
  end.

(** [d.keys()] and the invariant of every dictionary: no key twice. *)
Definition keys (d : dict) : list str := map fst d.
Definition dict_wf (d : dict) : Prop := NoDup (keys d).

End Py.

(** ** SHA-256 (FIPS 180-4), the digest behind [hashlib.sha256] *)

Module SHA256.

Definition bytes := list N.

(** 32-bit words are numbers below [2^32]; every operation wraps. *)
Definition wrap32 (x : N) : N := x mod 0x100000000.
Definition add32 (x y : N) : N := wrap32 (x + y).
Definition not32 (x : N) : N := N.lxor (wrap32 x) 0xFFFFFFFF.
Definition shr (n x : N) : N := N.shiftr x n.
Definition rotr (n x : N) : N :=
  N.lor (N.shiftr x n) (wrap32 (N.shiftl x (32 - n))).

Definition Ch (x y z : N) : N := N.lxor (N.land x y) (N.land (not32 x) z).
Definition Maj (x y z : N) : N :=
  N.lxor (N.lxor (N.land x y) (N.land x z)) (N.land y z).
Definition bsig0 (x : N) : N := N.lxor (N.lxor (rotr 2 x) (rotr 13 x)) (rotr 22 x).
Definition bsig1 (x : N) : N := N.lxor (N.lxor (rotr 6 x) (rotr 11 x)) (rotr 25 x).
Definition ssig0 (x : N) : N := N.lxor (N.lxor (rotr 7 x) (rotr 18 x)) (shr 3 x).
Definition ssig1 (x : N) : N := N.lxor (N.lxor (rotr 17 x) (rotr 19 x)) (shr 10 x).

(** The constants of FIPS 180-4 are the first 32 bits of the fractional
    parts of roots of the first primes: cube roots of the first 64 for the
    round constants, square roots of the first 8 for the initial state. *)
Definition is_prime (n : N) : bool :=
  (1 <? n) && forallb (fun d => negb (n mod d =? 0))
                      (map N.of_nat (seq 2 (N.to_nat n - 2))).

Definition primes : list N :=
  List.filter is_prime (map N.of_nat (seq 2 310)).

(** The largest [r + x], [x < 2^bits], whose [k]-th power is at most [n]. *)
Fixpoint root_from (k : N) (bits : nat) (n r : N) : N :=
  match bits with
  | O => r
  | S b =>
      let c := r + 2 ^ N.of_nat b in
      if c ^ k <=? n then root_from k b n c else root_from k b n r
  end.

(** First 32 bits of the fractional part of the [k]-th root of [p]. *)
Definition frac32_root (k p : N) : N :=
  wrap32 (root_from k 40 (p * 2 ^ (32 * k)) 0).

Definition K : list N := Eval vm_compute in map (frac32_root 3) primes.

(** The eight working words. *)
Record state : Type := State {
  ha : N; hb : N; hc : N; hd : N; he : N; hf : N; hg : N; hh : N
}.

Definition init : state :=
  Eval vm_compute in
    match map (frac32_root 2) primes with
    | a :: b :: c :: d :: e :: f :: g :: h :: _ => State a b c d e f g h
    | _ => State 0 0 0 0 0 0 0 0
    end.

(** Padding: a 1 bit, zeros, and the bit length on 64 bits, to a multiple
    of 64 octets. *)
Definition be_bytes (n : nat) (x : N) : bytes :=
  map (fun i => (x / 2 ^ (8 * N.of_nat i)) mod 256) (rev (seq 0 n)).

Definition pad (msg : bytes) : bytes :=
  let len := N.of_nat (length msg) in
  let zeros := (64 - (len + 9) mod 64) mod 64 in
  msg ++ [0x80] ++ repeat 0 (N.to_nat zeros) ++ be_bytes 8 (8 * len).

(** Big-endian words of a block. *)
Fixpoint words (b : bytes) : list N :=
  match b with
  | b0 :: b1 :: b2 :: b3 :: rest =>
      (b0 * 0x1000000 + b1 * 0x10000 + b2 * 0x100 + b3) :: words rest
  | _ => []
  end.

(** Message schedule: 16 words of the block, extended to 64. *)
Fixpoint extend (n : nat) (w : list N) : list N :=
  match n with
  | O => w
  | S n' =>
      let t := length w in
      let at_ (i : nat) := nth (t - i)%nat w 0 in
      extend n' (w ++ [add32 (add32 (ssig1 (at_ 2%nat)) (at_ 7%nat))
                             (add32 (ssig0 (at_ 15%nat)) (at_ 16%nat))])
  end.

Definition schedule (block : bytes) : list N := extend 48 (words block).

Definition round (s : state) (kw : N * N) : state :=
  let t1 := add32 (add32 (add32 (hh s) (bsig1 (he s)))
                         (add32 (Ch (he s) (hf s) (hg s)) (fst kw))) (snd kw) in
  let t2 := add32 (bsig0 (ha s)) (Maj (ha s) (hb s) (hc s)) in
  State (add32 t1 t2) (ha s) (hb s) (hc s) (add32 (hd s) t1) (he s) (hf s) (hg s).

Definition compress (s : state) (block : bytes) : state :=
  let r := fold_left round (combine K (schedule block)) s in
  State (add32 (ha s) (ha r)) (add32 (hb s) (hb r))
        (add32 (hc s) (hc r)) (add32 (hd s) (hd r))
        (add32 (he s) (he r)) (add32 (hf s) (hf r))
        (add32 (hg s) (hg r)) (add32 (hh s) (hh r)).

Definition block_at (padded : bytes) (i : nat) : bytes :=
  firstn 64 (skipn (64 * i) padded).

Definition output (s : state) : bytes :=
  concat (map (be_bytes 4) [ha s; hb s; hc s; hd s; he s; hf s; hg s; hh s]).

(** [hashlib.sha256(msg).digest()] *)
Definition digest (msg : bytes) : bytes :=
  let padded := pad msg in
  let blocks := map (block_at padded) (seq 0 (length padded / 64)) in
  output (fold_left compress blocks init).

Definition block_size : nat := 64.
Definition digest_size : nat := 32.

End SHA256.

(** ** HMAC (RFC 2104), as [hmac.new(key, msg, hashlib.sha256)] *)

Module HMAC.

Definition bytes := list N.

(** Keys longer than a block are hashed; the key is then padded with zero
    octets to the block size. *)
Definition key_block (key : bytes) : bytes :=
  let k := if (SHA256.block_size <? length key)%nat then SHA256.digest key else key in
  k ++ repeat 0 (SHA256.block_size - length k)%nat.

Definition translate (pad : N) (k : bytes) : bytes := map (fun b => N.lxor b pad) k.

(** [hmac.new(key, msg, hashlib.sha256).digest()] *)
Definition digest (key msg : bytes) : bytes :=
  let k := key_block key in
  let inner := SHA256.digest (translate 0x36 k ++ msg) in
  SHA256.digest (translate 0x5C k ++ inner).

(** Lowercase hexadecimal digits. *)
Definition hex_digit (n : N) : N := nth (N.to_nat n) (Py.lit "0123456789abcdef") 0x30.

(** [bytes.hex()]: two lowercase digits per octet. *)
Definition hex (b : bytes) : Py.str :=
  flat_map (fun x => [hex_digit ((x / 16) mod 16); hex_digit (x mod 16)]) b.

(** [hmac.new(key, msg, hashlib.sha256).hexdigest()] *)
Definition hexdigest (key msg : bytes) : Py.str := hex (digest key msg).

End HMAC.

(** ** [urllib.parse]: percent-encoding of a query *)

Module Urllib.

Import Py.

(** Octets never quoted: letters, digits and [_.-~]. *)
Definition always_safe : bytes :=
  lit "ABCDEFGHIJKLMNOPQRSTUVWXYZabcdefghijklmnopqrstuvwxyz0123456789_.-~".

Definition upper_hex_digit (n : N) : N :=
  nth (N.to_nat n) (lit "0123456789ABCDEF") 0x30.

(** ['%{:02X}'.format(b)] *)
Definition percent (b : N) : str :=
  [0x25; upper_hex_digit ((b / 16) mod 16); upper_hex_digit (b mod 16)].

(** One octet: itself when safe, percent-encoded otherwise. *)
Definition quoter (safe : bytes) (b : N) : str :=
  if contains b (always_safe ++ safe) then [b] else percent b.

(** [safe.encode('ascii', 'ignore')] *)
Definition ascii_ignore (s : str) : bytes := List.filter (fun c => c <? 128) s.

Definition quote_from_bytes (bs : bytes) (safe : str) : str :=
  flat_map (quoter (ascii_ignore safe)) bs.

(** [quote(s, safe)]: the empty string is returned as it is, any other is
    encoded to UTF-8 and quoted octet by octet. *)
Definition quote (s : str) (safe : str) : result str :=
  match s with
  | [] => Ok []
  | _ => let* bs := encode_utf8 s in Ok (quote_from_bytes bs safe)
  end.

(** [quote_plus(s, safe)]: as [quote], with spaces turned into [+]. *)
Definition quote_plus (s : str) (safe : str) : result str :=
  if contains 0x20 s then
    let* q := quote s (safe ++ [0x20]) in Ok (replace_char 0x20 0x2B q)
  else quote s safe.

(** [urlencode(query, doseq=False, safe=safe)] on a dictionary: entries in
    iteration order, keys and [str] of values quoted with [quote_plus]. *)
Definition urlencode_pair (safe : str) (kv : str * value) : result str :=
  let* k := quote_plus (fst kv) safe in
  let* v := quote_plus (str_of (snd kv)) safe in
  Ok (k ++ lit "=" ++ v).

Definition urlencode (query : dict) (safe : str) : result str :=
  let* l := mapM (urlencode_pair safe) query in Ok (join (lit "&") l).

End Urllib.

(** ** The application *)

Module App.

Import Py.

(** The pairs [(k, str(v))] of a dictionary, in iteration order. *)
Definition items (params : dict) : list (str * str) :=
  map (fun kv => (fst kv, str_of (snd kv))) params.

(** [f"{k}={v}"] *)
Definition pair_text (kv : str * str) : str := fst kv ++ lit "=" ++ snd kv.

Definition canon_query (params : dict) : str :=
  let items := sorted (items params) in
  join (lit "&") (map pair_text items).

Definition make_sig (secret : str) (params : dict) : result str :=
  let* base := encode_utf8 (canon_query params) in
  let* key := encode_utf8 secret in
  Ok (HMAC.hexdigest key base).

Definition build_url (domain survey_code : str) (params : dict) : result str :=
  let base :=
    lit "https://" ++ rstrip (lit "/") (strip domain) ++ lit "/r/" ++ strip survey_code in
  let* qs := Urllib.urlencode params (lit "-_.:") in
  Ok (match qs with
      | [] => base
      | _ => base ++ lit "?" ++ qs
      end).

(** *** The script: widgets, clock, parameters, signature, final URL *)

(** The select box offers two host names. *)
Inductive domain_option : Type :=
  | PtSurveyMonkey
  | WwwSurveyMonkey.

Definition domain_text (d : domain_option) : str :=
  match d with
  | PtSurveyMonkey => lit "pt.surveymonkey.com"
  | WwwSurveyMonkey => lit "www.surveymonkey.com"
  end.

(** The values of the widgets in one run of the script. *)
Record widgets : Type := Widgets {
  domain : domain_option;
  survey_code : str;
  store_id : str;
  order_id : str;
  add_ts : bool;
  use_sig : bool;
  secret : str
}.

(** [datetime.utcnow()] *)
Record datetime : Type := Datetime {
  year : N; month : N; day : N; hour : N; minute : N; second : N
}.

(** [t.isoformat(timespec="seconds")] *)
Definition isoformat_seconds (t : datetime) : str :=
  zfill 4 (str_of_N (year t)) ++ lit "-" ++ zfill 2 (str_of_N (month t))
  ++ lit "-" ++ zfill 2 (str_of_N (day t)) ++ lit "T"
  ++ zfill 2 (str_of_N (hour t)) ++ lit ":" ++ zfill 2 (str_of_N (minute t))
  ++ lit ":" ++ zfill 2 (str_of_N (second t)).

(** Truth value of a string: non-empty. *)
Definition truthy (s : str) : bool :=
  match s with
  | [] => false
  | _ :: _ => true
  end.

(** Lines 96-102: the parameters before any signature. *)
Definition assemble_params (w : widgets) (now : datetime) : dict :=
  let params := [] in
  let params :=
    if truthy (store_id w) then dict_set params (lit "store_id") (VStr (store_id w))
    else params in
  let params :=
    if truthy (order_id w) then dict_set params (lit "order_id") (VStr (order_id w))
    else params in
  let params :=
    if add_ts w then dict_set params (lit "ts") (VStr (isoformat_seconds now ++ lit "Z"))
    else params in
  params.

(** Lines 105-106: the signature, when asked for and possible. The right
    hand side is evaluated on the dictionary as it is before the store. *)
Definition sign_params (w : widgets) (params : dict) : result dict :=
  if use_sig w && truthy (secret w) then
    let* sig := make_sig (secret w) params in
    Ok (dict_set params (lit "sig") (VStr sig))
  else Ok params.

(** What the page shows. *)
Inductive element : Type :=
  | Subheader (text : str)
  | Code (text : str)
  | Markdown (text : str).

Record page : Type := Page {
  params : dict;
  url_final : str;
  elements : list element
}.

Definition element_text (e : element) : str :=
  match e with
  | Subheader text => text
  | Code text => text
  | Markdown text => text
  end.

(** [st.subheader], [st.code], [st.markdown]: the element is sent to the
    page with its text encoded as UTF-8, which fails on a lone
    surrogate. *)
Definition st_write (e : element) : result element :=
  let* _ := encode_utf8 (element_text e) in Ok e.

(** Lines 95-114. *)
Definition script (w : widgets) (now : datetime) : result page :=
  let params := assemble_params w now in
  let* params := sign_params w params in
  let* url_final := build_url (domain_text (domain w)) (survey_code w) params in
  let* heading := st_write (Subheader (lit "URL final do survey")) in
  let* code := st_write (Code url_final) in
  let* link := st_write (Markdown (lit "[Abrir link agora](" ++ url_final ++ lit ")")) in
  Ok (Page params url_final [heading; code; link]).

End App.

(** * Vocabulary of the statements *)

Import Py.
Import App.

(** The three laws of a three-way comparison that is a total order, and
    the order it induces. *)
Record comparison_laws {A : Type} (cmp : A -> A -> comparison) : Prop := {
  cmp_eq : forall a b, cmp a b = Eq <-> a = b;
  cmp_opp : forall a b, cmp b a = CompOpp (cmp a b);
  cmp_lt_trans : forall a b c, cmp a b = Lt -> cmp b c = Lt -> cmp a c = Lt
}.

Definition cmp_le {A : Type} (cmp : A -> A -> comparison) (a b : A) : Prop :=
  cmp a b <> Gt.

(** Two dictionaries hold the same content when every key reads the same
    in both. *)
Definition same_content (p q : dict) : Prop :=
  forall k, dict_get p k = dict_get q k.

(** Lexicographic order on sequences of code points, stated on its own:
    a proper prefix comes first, otherwise the first differing code points
    decide. *)
Inductive lex_lt : str -> str -> Prop :=
  | lex_lt_prefix c b : lex_lt [] (c :: b)
  | lex_lt_head x y a b : x < y -> lex_lt (x :: a) (y :: b)
  | lex_lt_tail x a b : lex_lt a b -> lex_lt (x :: a) (x :: b).

Definition lex_le (a b : str) : Prop := a = b \/ lex_lt a b.

(** Unicode scalar values: the code points that are not surrogates. *)
Definition is_scalar (c : N) : bool := is_codepoint c && negb (is_surrogate c).

(** Well-formed text: every element is a scalar value. *)
Definition text (s : str) : Prop := Forall (fun c => is_scalar c = true) s.

(** A dictionary of well-formed text keys and values of well-formed text form. *)
Definition dict_text (p : dict) : Prop :=
  Forall (fun kv => text (fst kv) /\ text (str_of (snd kv))) p.

Definition is_lower_hex (c : N) : bool :=
  ((0x30 <=? c) && (c <=? 0x39)) || ((0x61 <=? c) && (c <=? 0x66)).

(** The host part of the base URL and the path segment, as [build_url]
    forms them. *)
Definition norm_domain (domain : str) : str := rstrip (lit "/") (strip domain).

(** RFC 3986 reserved characters (gen-delims and sub-delims), and the four
    characters [build_url] asks to keep. *)
Definition reserved : str := lit ":/?#[]@!$&'()*+,;=".

Definition kept : str := lit "-_.:".

Definition is_alnum (c : N) : bool :=
  ((0x30 <=? c) && (c <=? 0x39)) || ((0x41 <=? c) && (c <=? 0x5A))
  || ((0x61 <=? c) && (c <=? 0x7A)).

Definition utf8_octets (c : N) : bytes :=
  match utf8_cp c with
  | Ok b => b
  | Raise _ => []
  end.

(** A space becomes [+]; letters, digits, [_.-~] and the kept characters
    stay; every other character becomes [%XX] for each octet of its UTF-8
    encoding. *)
Definition escape_cp (c : N) : str :=
  if c =? 0x20 then lit "+"
  else if is_alnum c || contains c (lit "_.-~") || contains c kept then [c]
  else flat_map Urllib.percent (utf8_octets c).

Definition escape (s : str) : str := flat_map escape_cp s.

(** The query string, on the character-by-character encoding. *)
Definition query_pair (kv : str * value) : str :=
  escape (fst kv) ++ lit "=" ++ escape (str_of (snd kv)).

Definition query_string (params : dict) : str :=
  join (lit "&") (map query_pair params).

Definition base_url (domain survey_code : str) : str :=
  lit "https://" ++ norm_domain domain ++ lit "/r/" ++ strip survey_code.

(** The text fields that get encoded are well-formed text: store_id,
    order_id and the secret when they are signed or put in the query, the
    survey code when the URL is shown. *)
Definition widgets_text (w : widgets) : Prop :=
  text (store_id w) /\ text (order_id w) /\ text (secret w)
  /\ text (survey_code w).

Definition param_names : list str := [lit "store_id"; lit "order_id"; lit "ts"].

Definition signing (w : widgets) : Prop := use_sig w = true /\ secret w <> [].

(** The canonical string can be read back when the delimiters occur only
    as delimiters: keys without [=] and [&], value texts without [&]. *)
Definition delimiter_free (p : dict) : Prop :=
  Forall (fun kv => contains 0x3D (fst kv) = false
                    /\ contains 0x26 (fst kv) = false
                    /\ contains 0x26 (str_of (snd kv)) = false) p.

(** The text a key reads as, if present. *)
Definition text_at (p : dict) (k : str) : option str :=
  match dict_get p k with
  | Some v => Some (str_of v)
  | None => None
  end.

(** Keys alone, compared as [str]. *)
Definition key_leb (a b : str) : bool :=
  match str_compare a b with
  | Gt => false
  | _ => true
  end.

Definition key_le (a b : str) : Prop := key_leb a b = true.

#[export] Instance key_le_dec : RelDecision key_le.
Proof. intros a b. unfold key_le. apply _. Defined.

(** The other way to write the canonical string: sort the keys, then read
    each value by its key,
    ["&".join(f"{k}={params[k]}" for k in sorted(params))]. *)
Definition sorted_keys (p : dict) : list str := merge_sort key_le (keys p).

Definition canon_by_keys (p : dict) : str :=
  join (lit "&")
       (map (fun k => k ++ lit "=" ++ match dict_get p k with
                                     | Some v => str_of v
                                     | None => []
                                     end)
            (sorted_keys p)).

(** Characters the query encoding leaves as they are. *)
Definition is_unreserved (c : N) : bool :=
  is_alnum c || contains c (lit "_.-~") || contains c kept.

(** The query encoding, octet by octet. *)
Definition escape_octet (b : N) : str :=
  if b =? 0x20 then lit "+"
  else if is_unreserved b then [b]
  else Urllib.percent b.

Fixpoint is_prefix (a b : str) : bool :=
  match a, b with
  | [], _ => true
  | _ :: _, [] => false
  | x :: a', y :: b' => (x =? y) && is_prefix a' b'
  end.

(** The four parameter names, in the order the script stores them. *)
Definition all_names : list str :=
  [lit "store_id"; lit "order_id"; lit "ts"; lit "sig"].

(** The widgets that reach the parameters agree. *)
Definition same_fields (w w' : widgets) : Prop :=
  store_id w = store_id w' /\ order_id w = order_id w'
  /\ add_ts w = add_ts w' /\ use_sig w = use_sig w' /\ secret w = secret w'.

(** What the script needs to run to its end: the texts it encodes. *)
Definition encodable (w : widgets) : Prop :=
  text (store_id w) /\ text (order_id w) /\ (signing w -> text (secret w))
  /\ text (survey_code w).

(** * Properties *)

(** ** Comparisons that are total orders *)

Section Comparison.
Context {A : Type} (cmp : A -> A -> comparison).
Hypothesis laws : comparison_laws cmp.

Lemma cmp_refl a : cmp a a = Eq.
Proof. by apply (cmp_eq _ laws). Qed.

Lemma cmp_le_trans a b c : cmp_le cmp a b -> cmp_le cmp b c -> cmp_le cmp a c.
Proof.
  unfold cmp_le. intros Hab Hbc.
  destruct (cmp a b) eqn:Eab; [| |done].
  - apply (cmp_eq _ laws) in Eab. by subst.
  - destruct (cmp b c) eqn:Ebc; [| |done].
    + apply (cmp_eq _ laws) in Ebc. subst. by rewrite Eab.
    + by rewrite (cmp_lt_trans _ laws a b c).
Qed.

Lemma cmp_le_total a b : cmp_le cmp a b \/ cmp_le cmp b a.
Proof.
  unfold cmp_le. rewrite (cmp_opp _ laws a b).
  destruct (cmp a b); simpl; auto.
Qed.

Lemma cmp_le_antisym a b : cmp_le cmp a b -> cmp_le cmp b a -> a = b.
Proof.
  unfold cmp_le. rewrite (cmp_opp _ laws a b). intros Hab Hba.
  apply (cmp_eq _ laws). destruct (cmp a b); simpl in *; done.
Qed.

End Comparison.

Lemma N_compare_laws : comparison_laws N.compare.
Proof.
  split.
  - apply N.compare_eq_iff.
  - intros a b. apply N.compare_antisym.
  - intros a b c. rewrite !N.compare_lt_iff. lia.
Qed.

Lemma str_compare_laws : comparison_laws str_compare.
Proof.
  split.
  - induction a as [|x a IH]; intros [|y b]; simpl; try done.
    destruct (N.compare_spec x y) as [->|Hlt|Hgt].
    + rewrite IH. split; congruence.
    + split; [done|]. intros [= -> _]. lia.
    + split; [done|]. intros [= -> _]. lia.
  - induction a as [|x a IH]; intros [|y b]; simpl; try done.
    rewrite (N.compare_antisym x y), IH.
    by destruct (x ?= y).
  - induction a as [|x a IH]; intros [|y b] [|z c]; simpl; try done.
    destruct (N.compare_spec x y) as [->|Hxy|Hxy]; [| |done].
    + destruct (N.compare_spec y z); [|done|done]. apply IH.
    + destruct (N.compare_spec y z) as [->|Hyz|Hyz]; [| |done]; intros _ _.
      * by rewrite (proj2 (N.compare_lt_iff x z)).
      * rewrite (proj2 (N.compare_lt_iff x z)); [done|lia].
Qed.

Lemma tuple_compare_laws : comparison_laws tuple_compare.
Proof.
  pose proof str_compare_laws as L.
  split.
  - intros [k1 v1] [k2 v2]. unfold tuple_compare; simpl.
    destruct (str_compare k1 k2) eqn:E.
    + apply (cmp_eq _ L) in E as ->. rewrite (cmp_eq _ L). split; congruence.
    + split; [done|]. intros [= -> _]. by rewrite (cmp_refl _ L) in E.
    + split; [done|]. intros [= -> _]. by rewrite (cmp_refl _ L) in E.
  - intros [k1 v1] [k2 v2]. unfold tuple_compare; simpl.
    rewrite (cmp_opp _ L k1 k2), (cmp_opp _ L v1 v2).
    by destruct (str_compare k1 k2).
  - intros [k1 v1] [k2 v2] [k3 v3]. unfold tuple_compare; simpl.
    destruct (str_compare k1 k2) eqn:E12; [| |done].
    + apply (cmp_eq _ L) in E12 as ->.
      destruct (str_compare k2 k3); [|done|done]. apply (cmp_lt_trans _ L).
    + destruct (str_compare k2 k3) eqn:E23; [| |done]; intros _ _.
      * apply (cmp_eq _ L) in E23 as <-. by rewrite E12.
      * by rewrite (cmp_lt_trans _ L k1 k2 k3).
Qed.

Lemma tuple_le_cmp s t : tuple_le s t <-> cmp_le tuple_compare s t.
Proof.
  unfold tuple_le, tuple_leb, cmp_le. by destruct (tuple_compare s t).
Qed.

#[local] Instance tuple_le_trans : Transitive tuple_le.
Proof.
  intros a b c. rewrite !tuple_le_cmp. apply cmp_le_trans, tuple_compare_laws.
Qed.

#[local] Instance tuple_le_total : Total tuple_le.
Proof.
  intros a b. rewrite !tuple_le_cmp. apply cmp_le_total, tuple_compare_laws.
Qed.

#[local] Instance tuple_le_antisym : AntiSymm (=) tuple_le.
Proof.
  intros a b. rewrite !tuple_le_cmp. apply cmp_le_antisym, tuple_compare_laws.
Qed.

(** ** [sorted] returns the one ascending arrangement of its argument *)

Lemma sorted_Permutation l : sorted l ≡ₚ l.
Proof. apply merge_sort_Permutation. Qed.

Lemma sorted_StronglySorted l : StronglySorted tuple_le (sorted l).
Proof. apply StronglySorted_merge_sort; apply _. Qed.

Lemma sorted_unique l l' :
  l' ≡ₚ l -> StronglySorted tuple_le l' -> sorted l = l'.
Proof.
  intros Hp Hs. apply (StronglySorted_unique tuple_le).
  - apply sorted_StronglySorted.
  - done.
  - by rewrite sorted_Permutation.
Qed.

Lemma sorted_perm_eq l1 l2 : l1 ≡ₚ l2 -> sorted l1 = sorted l2.
Proof.
  intros Hp. apply sorted_unique.
  - by rewrite sorted_Permutation.
  - apply sorted_StronglySorted.
Qed.

(** ** Dictionaries *)

Lemma str_eqb_eq a b : str_eqb a b = true <-> a = b.
Proof.
  unfold str_eqb. rewrite <- (cmp_eq _ str_compare_laws).
  destruct (str_compare a b); split; congruence.
Qed.

Lemma str_eqb_refl a : str_eqb a a = true.
Proof. by apply str_eqb_eq. Qed.

Lemma str_eqb_neq a b : str_eqb a b = false <-> a <> b.
Proof.
  rewrite <- str_eqb_eq. destruct (str_eqb a b); split; congruence.
Qed.

Lemma dict_wf_cons k v d :
  dict_wf ((k, v) :: d) <-> ((k ∉ keys d) /\ dict_wf d).
Proof. unfold dict_wf; simpl. apply NoDup_cons. Qed.

Lemma elem_of_keys k v (d : dict) : (k, v) ∈ d -> k ∈ keys d.
Proof.
  intros H. unfold keys. apply list_elem_of_In, (in_map fst) in H.
  by apply list_elem_of_In.
Qed.

Lemma dict_get_elem_of d k v :
  dict_wf d -> (dict_get d k = Some v <-> (k, v) ∈ d).
Proof.
  induction d as [|[k' v'] d IH]; simpl; intros Hwf.
  - split; [done|]. by intros ?%elem_of_nil.
  - apply dict_wf_cons in Hwf as [Hk Hwf].
    rewrite elem_of_cons. destruct (str_eqb k' k) eqn:E.
    + apply str_eqb_eq in E as ->. split.
      * intros [= ->]. by left.
      * intros [[= ->]|Hin]; [done|]. by apply elem_of_keys in Hin.
    + apply str_eqb_neq in E. rewrite (IH Hwf). split; [by right|].
      intros [[= -> _]|H]; done.
Qed.

Lemma dict_wf_NoDup d : dict_wf d -> NoDup d.
Proof. unfold dict_wf, keys. apply (NoDup_fmap_1 fst). Qed.

Lemma same_content_Permutation p q :
  dict_wf p -> dict_wf q -> same_content p q -> p ≡ₚ q.
Proof.
  intros Hp Hq Hc. apply NoDup_Permutation; try by apply dict_wf_NoDup.
  intros [k v]. by rewrite <- !dict_get_elem_of, Hc.
Qed.

Lemma Permutation_same_content p q :
  dict_wf p -> p ≡ₚ q -> same_content p q.
Proof.
  intros Hp Hpq k.
  assert (Hq : dict_wf q).
  { unfold dict_wf, keys in *. by rewrite <- Hpq. }
  destruct (dict_get p k) as [v|] eqn:E.
  - symmetry. apply dict_get_elem_of; [done|]. rewrite <- Hpq.
    by apply dict_get_elem_of.
  - destruct (dict_get q k) as [v|] eqn:E'; [|done].
    apply dict_get_elem_of in E'; [|done]. rewrite <- Hpq in E'.
    apply dict_get_elem_of in E'; [|done]. congruence.
Qed.

(** ** The canonical string *)


Lemma items_Permutation p q : p ≡ₚ q -> items p ≡ₚ items q.
Proof. intros H. unfold items. by apply Permutation_map. Qed.

Lemma canon_query_Permutation p q : p ≡ₚ q -> canon_query p = canon_query q.
Proof.
  intros H. unfold canon_query.
  by rewrite (sorted_perm_eq _ _ (items_Permutation _ _ H)).
Qed.

(** C1. Order independence: two parameter mappings with the same key/value
    content, whatever the insertion order, have the same canonical string;
    the two orders of store_id/order_id both give
    order_id=123456&store_id=045. *)
Theorem canon_query_order_independent :
  (forall p q : dict,
      dict_wf p -> dict_wf q -> same_content p q ->
      canon_query p = canon_query q)
  /\ (forall p q : dict, p ≡ₚ q -> canon_query p = canon_query q)
  /\ canon_query [(lit "store_id", VStr (lit "045"));
                  (lit "order_id", VStr (lit "123456"))]
     = lit "order_id=123456&store_id=045"
  /\ canon_query [(lit "order_id", VStr (lit "123456"));
                  (lit "store_id", VStr (lit "045"))]
     = lit "order_id=123456&store_id=045".
Proof.
  split; [|split; [|split]].
  - intros p q Hp Hq Hc.
    by apply canon_query_Permutation, same_content_Permutation.
  - apply canon_query_Permutation.
  - vm_compute. reflexivity.
  - vm_compute. reflexivity.
Qed.

Lemma str_compare_Lt a b : str_compare a b = Lt <-> lex_lt a b.
Proof.
  revert b. induction a as [|x a IH]; intros [|y b]; simpl.
  - split; [done|]. inversion 1.
  - split; [constructor|done].
  - split; [done|]. inversion 1.
  - destruct (N.compare_spec x y) as [->|Hlt|Hgt].
    + rewrite IH. split; [by constructor|].
      inversion 1; subst; [lia|done].
    + split; [by constructor|done].
    + split; [done|]. inversion 1; subst; lia.
Qed.

Lemma str_compare_le a b : str_compare a b <> Gt <-> lex_le a b.
Proof.
  unfold lex_le. rewrite <- str_compare_Lt, <- (cmp_eq _ str_compare_laws).
  destruct (str_compare a b); split; intros H; try done;
    try (by left); try (by right); by destruct H.
Qed.

Lemma tuple_le_key s t : tuple_le s t -> lex_le (fst s) (fst t).
Proof.
  unfold tuple_le, tuple_leb, tuple_compare. intros H.
  apply str_compare_le. by destruct (str_compare (fst s) (fst t)).
Qed.

Lemma StronglySorted_weaken {A} (R S : relation A) l :
  (forall a b, R a b -> S a b) -> StronglySorted R l -> StronglySorted S l.
Proof.
  intros HRS. induction 1 as [|a l Hs IH Hall]; constructor; [done|].
  eapply Forall_impl; [exact Hall|]. simpl. auto.
Qed.

Lemma sum_list_with_map {A B} (f : B -> nat) (g : A -> B) l :
  sum_list_with f (map g l) = sum_list_with (fun a => f (g a)) l.
Proof. induction l; simpl; congruence. Qed.

Lemma sum_list_with_ext {A} (f g : A -> nat) l :
  (forall a, f a = g a) -> sum_list_with f l = sum_list_with g l.
Proof. intros E. induction l; simpl; [done|]. by rewrite E, IHl. Qed.

Lemma join_length sep (l : list str) :
  l <> [] ->
  length (join sep l)
  = (sum_list_with length l + length sep * (length l - 1))%nat.
Proof.
  induction l as [|x [|y l] IH]; [done| |]; intros _.
  - simpl. lia.
  - change (join sep (x :: y :: l)) with (x ++ sep ++ join sep (y :: l)).
    rewrite !length_app, IH by done. simpl. lia.
Qed.

(** C2. The canonical string is the [&]-join of the entries [key=text],
    the text of each value being [str] of it, arranged ascending by key in
    lexicographic code-point order; nothing is escaped and no separator
    follows the last entry (n entries carry n-1 separators); the empty
    mapping gives the empty string. *)
Theorem canon_query_spec (p : dict) :
  (exists entries : list (str * str),
      entries ≡ₚ map (fun kv => (fst kv, str_of (snd kv))) p
      /\ StronglySorted (fun a b => lex_le (fst a) (fst b)) entries
      /\ canon_query p
         = join (lit "&") (map (fun e => fst e ++ lit "=" ++ snd e) entries))
  /\ (p <> [] ->
      length (canon_query p)
      = (sum_list_with (fun kv => length (fst kv) + 1 + length (str_of (snd kv))) p
         + (length p - 1))%nat)
  /\ canon_query [] = [].
Proof.
  split; [|split].
  - exists (sorted (items p)). split; [apply sorted_Permutation|]. split; [|done].
    eapply StronglySorted_weaken; [|apply sorted_StronglySorted].
    intros a b. apply tuple_le_key.
  - intros Hp. unfold canon_query.
    assert (Hlen : length (sorted (items p)) = length p).
    { rewrite (Permutation_length (sorted_Permutation _)).
      unfold items. by rewrite length_map. }
    rewrite join_length.
    + rewrite length_map, Hlen. f_equal; [|simpl; lia].
      rewrite (sum_list_with_map _ pair_text), (sorted_Permutation (items p)).
      unfold items. rewrite (sum_list_with_map _ _ p).
      apply sum_list_with_ext. intros [k v].
      unfold pair_text. simpl. rewrite length_app. simpl. lia.
    + intros E. apply (f_equal length) in E. rewrite length_map, Hlen in E.
      destruct p; done.
  - reflexivity.
Qed.

(** ** Text that can be encoded *)

Lemma bind_Ok {A B} (r : result A) (f : A -> result B) b :
  bind r f = Ok b <-> exists a, r = Ok a /\ f a = Ok b.
Proof.
  destruct r as [a|e]; simpl.
  - split; [eauto|]. by intros (a' & [= <-] & H).
  - split; [done|]. by intros (a' & [=] & _).
Qed.

Lemma utf8_cp_scalar c : is_scalar c = true <-> exists b, utf8_cp c = Ok b.
Proof.
  unfold is_scalar, utf8_cp, is_codepoint, is_surrogate.
  repeat match goal with
         | |- context [?a <? ?b] => destruct (N.ltb_spec a b)
         | |- context [?a <=? ?b] => destruct (N.leb_spec a b)
         end; simpl; try lia;
    (split; [eauto; done | try done; intros [b [=]]]).
Qed.

Lemma mapM_Ok_Forall {A B} (f : A -> result B) l :
  Forall (fun a => exists b, f a = Ok b) l <-> exists bs, mapM f l = Ok bs.
Proof.
  induction l as [|a l IH]; simpl.
  - split; eauto.
  - rewrite Forall_cons, IH. split.
    + intros [[b Hb] [bs Hbs]]. rewrite Hb, Hbs. simpl. eauto.
    + intros [bs H]. apply bind_Ok in H as (b & Hb & H).
      apply bind_Ok in H as (bs' & Hbs & _). eauto.
Qed.

Lemma encode_utf8_text s : text s <-> exists b, encode_utf8 s = Ok b.
Proof.
  unfold text, encode_utf8. split.
  - intros H. assert (exists bs, mapM utf8_cp s = Ok bs) as [bs Hbs].
    { apply mapM_Ok_Forall. eapply Forall_impl; [exact H|].
      intros c. apply utf8_cp_scalar. }
    rewrite Hbs. simpl. eauto.
  - intros [b H]. apply bind_Ok in H as (bs & Hbs & _).
    assert (Hall : Forall (fun c => exists b, utf8_cp c = Ok b) s).
    { apply mapM_Ok_Forall. eauto. }
    eapply Forall_impl; [exact Hall|]. intros c. apply utf8_cp_scalar.
Qed.

Lemma text_app a b : text a -> text b -> text (a ++ b).
Proof. unfold text. intros. by apply Forall_app. Qed.

Lemma text_lit_ascii (s : string) : text (lit s).
Proof.
  unfold text, lit. apply Forall_forall. intros c Hc.
  apply list_elem_of_In, in_map_iff in Hc as (a & <- & _).
  assert (N_of_ascii a < 256) by apply N_ascii_bounded.
  unfold is_scalar, is_codepoint, is_surrogate.
  destruct (N.ltb_spec (N_of_ascii a) 0x110000); [|lia].
  destruct (N.leb_spec 0xD800 (N_of_ascii a)); [lia|]. done.
Qed.

Lemma text_join sep l : text sep -> Forall text l -> text (join sep l).
Proof.
  intros Hsep. induction 1 as [|x [|y l] Hx Hl IH]; [constructor|done|].
  change (join sep (x :: y :: l)) with (x ++ sep ++ join sep (y :: l)).
  auto using text_app.
Qed.

Lemma text_str_of v : match v with VStr s => text s | _ => True end -> text (str_of v).
Proof. destruct v as [s|z|[|]]; simpl; auto using text_lit_ascii. Qed.

Lemma text_canon_query p : dict_text p -> text (canon_query p).
Proof.
  intros Hp. unfold canon_query. apply text_join; [apply text_lit_ascii|].
  apply Forall_forall. intros x Hx.
  apply list_elem_of_In, in_map_iff in Hx as ([k v] & <- & Hin).
  apply list_elem_of_In in Hin. rewrite (sorted_Permutation (items p)) in Hin.
  unfold items in Hin.
  apply list_elem_of_In, in_map_iff in Hin as ([k' v'] & [= <- <-] & Hin).
  apply list_elem_of_In in Hin.
  unfold dict_text in Hp. rewrite Forall_forall in Hp.
  destruct (Hp _ Hin) as [Hk Hv]. simpl in *.
  unfold pair_text; cbn [fst snd]. auto using text_app, text_lit_ascii.
Qed.

(** ** The signature *)

Lemma sha256_digest_length m : length (SHA256.digest m) = 32%nat.
Proof. unfold SHA256.digest. by destruct (fold_left _ _ _). Qed.

Lemma hmac_digest_length key msg : length (HMAC.digest key msg) = 32%nat.
Proof. apply sha256_digest_length. Qed.

Lemma hex_length b : length (HMAC.hex b) = (2 * length b)%nat.
Proof. unfold HMAC.hex. induction b; simpl in *; lia. Qed.

Lemma hex_digit_lower n : n < 16 -> is_lower_hex (HMAC.hex_digit n) = true.
Proof.
  intros Hn. unfold HMAC.hex_digit.
  assert (Hall : Forall (fun c => is_lower_hex c = true) (lit "0123456789abcdef")).
  { vm_compute. repeat constructor. }
  rewrite Forall_forall in Hall. apply Hall, list_elem_of_In, nth_In.
  change (length (lit "0123456789abcdef")) with 16%nat. lia.
Qed.

Lemma hex_lower b : Forall (fun c => is_lower_hex c = true) (HMAC.hex b).
Proof.
  unfold HMAC.hex. induction b as [|x b IH]; simpl; [constructor|].
  repeat constructor; [| |exact IH]; apply hex_digit_lower, N.mod_lt; lia.
Qed.

(** The derived constants are those printed in FIPS 180-4. *)
Example sha256_constants :
  length SHA256.K = 64%nat
  /\ nth 0 SHA256.K 0 = 0x428a2f98 /\ nth 63 SHA256.K 0 = 0xc67178f2
  /\ SHA256.ha SHA256.init = 0x6a09e667 /\ SHA256.hh SHA256.init = 0x5be0cd19.
Proof. vm_compute. repeat split. Qed.

(** Known answers: SHA-256 of "abc" (FIPS 180-4) and HMAC-SHA256 with key
    "Jefe" (RFC 4231, test case 2). *)
Example sha256_abc :
  HMAC.hex (SHA256.digest (lit "abc"))
  = lit "ba7816bf8f01cfea414140de5dae2223b00361a396177a9cb410ff61f20015ad".
Proof. vm_compute. reflexivity. Qed.

Example hmac_sha256_rfc4231_2 :
  HMAC.hexdigest (lit "Jefe") (lit "what do ya want for nothing?")
  = lit "5bdcc146bf60754e6a042426089575c75a003f089d2739839dec58b964ec3843".
Proof. vm_compute. reflexivity. Qed.

(** C3. For a secret and parameters that are well-formed text, [make_sig]
    returns the lowercase hexadecimal form (64 digits) of the 32-octet
    HMAC-SHA256 of the UTF-8 octets of the canonical string, keyed by the
    UTF-8 octets of the secret. *)
Theorem make_sig_spec (secret : str) (params : dict) :
  text secret -> dict_text params ->
  exists key base : bytes,
    encode_utf8 secret = Ok key
    /\ encode_utf8 (canon_query params) = Ok base
    /\ make_sig secret params = Ok (HMAC.hex (HMAC.digest key base))
    /\ length (HMAC.digest key base) = 32%nat
    /\ length (HMAC.hex (HMAC.digest key base)) = 64%nat
    /\ Forall (fun c => is_lower_hex c = true) (HMAC.hex (HMAC.digest key base)).
Proof.
  intros Hs Hp.
  apply encode_utf8_text in Hs as [key Hkey].
  apply text_canon_query, encode_utf8_text in Hp as [base Hbase].
  exists key, base. unfold make_sig. rewrite Hkey, Hbase. cbn [bind].
  split; [done|]. split; [done|]. split; [done|].
  split; [apply hmac_digest_length|]. split; [|apply hex_lower].
  by rewrite hex_length, hmac_digest_length.
Qed.

Lemma make_sig_spec_witness :
  exists key base : bytes,
    encode_utf8 (lit "k") = Ok key
    /\ encode_utf8 (canon_query [(lit "store_id", VStr (lit "045"))]) = Ok base
    /\ make_sig (lit "k") [(lit "store_id", VStr (lit "045"))]
       = Ok (HMAC.hex (HMAC.digest key base))
    /\ length (HMAC.digest key base) = 32%nat
    /\ length (HMAC.hex (HMAC.digest key base)) = 64%nat
    /\ Forall (fun c => is_lower_hex c = true) (HMAC.hex (HMAC.digest key base)).
Proof.
  apply (make_sig_spec (lit "k") [(lit "store_id", VStr (lit "045"))]).
  - apply text_lit_ascii.
  - repeat constructor; apply text_lit_ascii.
Defined.

(** ** Stripping *)

Lemma lstrip_by_length p s : (length (lstrip_by p s) <= length s)%nat.
Proof. induction s as [|c s IH]; simpl; [lia|]. destruct (p c); simpl; lia. Qed.

Lemma lstrip_by_fixed p s :
  length (lstrip_by p s) = length s -> lstrip_by p s = s.
Proof.
  destruct s as [|c s]; simpl; [done|]. destruct (p c); [|done].
  pose proof (lstrip_by_length p s). lia.
Qed.

Lemma rstrip_by_length p s : (length (rstrip_by p s) <= length s)%nat.
Proof.
  unfold rstrip_by. rewrite length_rev, <- (length_rev s).
  apply lstrip_by_length.
Qed.

Lemma rstrip_by_fixed p s :
  length (rstrip_by p s) = length s -> rstrip_by p s = s.
Proof.
  unfold rstrip_by. rewrite length_rev, <- (length_rev s). intros H.
  by rewrite (lstrip_by_fixed _ _ H), rev_involutive.
Qed.

Lemma strip_fixed s :
  strip s = s -> lstrip_by isspace s = s /\ rstrip_by isspace s = s.
Proof.
  unfold strip. intros H.
  pose proof (lstrip_by_length isspace s) as Hl.
  pose proof (rstrip_by_length isspace (lstrip_by isspace s)) as Hr.
  assert (El : lstrip_by isspace s = s).
  { apply lstrip_by_fixed. apply (f_equal length) in H. lia. }
  split; [done|]. by rewrite El in H.
Qed.

Lemma lstrip_by_app_l p ws s :
  Forall (fun c => p c = true) ws -> lstrip_by p (ws ++ s) = lstrip_by p s.
Proof. induction 1 as [|c ws Hc _ IH]; simpl; [done|]. by rewrite Hc. Qed.

Lemma lstrip_by_all p ws :
  Forall (fun c => p c = true) ws -> lstrip_by p ws = [].
Proof.
  intros H. rewrite <- (app_nil_r ws). by rewrite lstrip_by_app_l.
Qed.

Lemma lstrip_by_app_fixed p s t :
  s <> [] -> lstrip_by p s = s -> lstrip_by p (s ++ t) = s ++ t.
Proof.
  destruct s as [|c s]; [done|]. simpl. intros _.
  destruct (p c); [|done]. intros H.
  pose proof (lstrip_by_length p s) as Hl. apply (f_equal length) in H.
  simpl in H. lia.
Qed.

Lemma rstrip_by_app_r p s ws :
  Forall (fun c => p c = true) ws -> rstrip_by p (s ++ ws) = rstrip_by p s.
Proof.
  intros H. unfold rstrip_by. rewrite rev_app_distr, lstrip_by_app_l; [done|].
  apply Forall_forall. intros c Hc. rewrite Forall_forall in H. apply H.
  by apply list_elem_of_In, in_rev, list_elem_of_In in Hc.
Qed.

Lemma rstrip_by_app_fixed p s t :
  t <> [] -> rstrip_by p t = t -> rstrip_by p (s ++ t) = s ++ t.
Proof.
  intros Ht H. unfold rstrip_by in *. rewrite rev_app_distr.
  rewrite lstrip_by_app_fixed.
  - by rewrite <- rev_app_distr, rev_involutive.
  - intros E. apply (f_equal (@rev N)) in E. by rewrite rev_involutive in E.
  - apply (f_equal (@rev N)) in H. by rewrite rev_involutive in H.
Qed.

Lemma slashes_rstrip n :
  Forall (fun c => existsb (N.eqb c) (lit "/") = true) (repeat 0x2F n).
Proof. apply Forall_forall. intros c Hc%list_elem_of_In%repeat_spec. by subst. Qed.

Lemma slashes_not_space n :
  n <> 0%nat -> rstrip_by isspace (repeat 0x2F n) = repeat 0x2F n.
Proof.
  intros Hn. unfold rstrip_by. rewrite rev_repeat.
  destruct n; [done|].
  change (lstrip_by isspace (repeat 0x2F (S n))) with (repeat 0x2F (S n)).
  apply rev_repeat.
Qed.

Lemma strip_surrounded ws1 ws2 s :
  Forall (fun c => isspace c = true) ws1 ->
  Forall (fun c => isspace c = true) ws2 ->
  strip s = s -> strip (ws1 ++ s ++ ws2) = s.
Proof.
  intros H1 H2 Hs. apply strip_fixed in Hs as [Hl Hr]. unfold strip.
  rewrite lstrip_by_app_l by done.
  destruct (decide (s = [])) as [->|Hne].
  - simpl. by rewrite lstrip_by_all.
  - rewrite lstrip_by_app_fixed by done. by rewrite rstrip_by_app_r.
Qed.

Lemma norm_domain_surrounded ws1 ws2 n d :
  Forall (fun c => isspace c = true) ws1 ->
  Forall (fun c => isspace c = true) ws2 ->
  strip d = d ->
  norm_domain (ws1 ++ d ++ repeat 0x2F n ++ ws2) = norm_domain d.
Proof.
  intros H1 H2 Hd. unfold norm_domain. rewrite Hd.
  rewrite (app_assoc d). rewrite strip_surrounded; try done.
  - unfold rstrip. by rewrite rstrip_by_app_r by apply slashes_rstrip.
  - apply strip_fixed in Hd as [Hl Hr]. unfold strip.
    destruct (decide (n = 0%nat)) as [->|Hn].
    { simpl. rewrite app_nil_r. by rewrite Hl. }
    destruct (decide (d = [])) as [->|Hne].
    + simpl. rewrite (lstrip_by_fixed isspace (repeat 0x2F n)).
      * by apply slashes_not_space.
      * destruct n; done.
    + rewrite lstrip_by_app_fixed by done.
      rewrite rstrip_by_app_fixed; [done| |by apply slashes_not_space].
      destruct n; done.
Qed.

(** C6. The domain is stripped of surrounding whitespace and then of
    trailing slashes, the survey code of surrounding whitespace: white
    space around a domain followed by slashes, or around a survey code,
    does not change the URL; in particular " pt.surveymonkey.com/ " builds
    what "pt.surveymonkey.com" builds, for every survey code and mapping. *)
Theorem build_url_strips :
  (forall (ws1 ws2 d : str) (n : nat) (code : str) (params : dict),
      Forall (fun c => isspace c = true) ws1 ->
      Forall (fun c => isspace c = true) ws2 ->
      strip d = d ->
      build_url (ws1 ++ d ++ repeat 0x2F n ++ ws2) code params
      = build_url d code params)
  /\ (forall (ws1 ws2 code domain : str) (params : dict),
      Forall (fun c => isspace c = true) ws1 ->
      Forall (fun c => isspace c = true) ws2 ->
      strip code = code ->
      build_url domain (ws1 ++ code ++ ws2) params
      = build_url domain code params)
  /\ (forall (code : str) (params : dict),
      build_url (lit " pt.surveymonkey.com/ ") code params
      = build_url (lit "pt.surveymonkey.com") code params).
Proof.
  split; [|split].
  - intros ws1 ws2 d n code params H1 H2 Hd. unfold build_url.
    fold (norm_domain (ws1 ++ d ++ repeat 0x2F n ++ ws2)). fold (norm_domain d).
    by rewrite norm_domain_surrounded.
  - intros ws1 ws2 code domain params H1 H2 Hc. unfold build_url.
    by rewrite strip_surrounded, Hc.
  - intros code params. unfold build_url.
    replace (rstrip (lit "/") (strip (lit " pt.surveymonkey.com/ ")))
      with (rstrip (lit "/") (strip (lit "pt.surveymonkey.com")));
      [done|]. vm_compute. reflexivity.
Qed.

Lemma build_url_strips_witness :
  build_url (lit " " ++ lit "a.b" ++ repeat 0x2F 2 ++ lit " ") (lit "c") []
  = build_url (lit "a.b") (lit "c") []
  /\ build_url (lit "a.b") (lit " " ++ lit "c" ++ lit " ") []
     = build_url (lit "a.b") (lit "c") [].
Proof.
  split.
  - apply (proj1 build_url_strips); [by repeat constructor..|].
    vm_compute. reflexivity.
  - apply (proj1 (proj2 build_url_strips)); [by repeat constructor..|].
    vm_compute. reflexivity.
Defined.

(** ** The query encoding, character by character *)

Lemma below_128 (P : N -> bool) :
  forallb P (map N.of_nat (seq 0 128)) = true ->
  forall c, c < 128 -> P c = true.
Proof.
  intros H c Hc. rewrite forallb_forall in H. apply H.
  rewrite <- (N2Nat.id c). apply in_map, in_seq. lia.
Qed.

Lemma encode_utf8_octets s : text s -> encode_utf8 s = Ok (flat_map utf8_octets s).
Proof.
  unfold encode_utf8. intros H.
  assert (E : mapM utf8_cp s = Ok (map utf8_octets s)).
  { induction H as [|c s Hc _ IH]; [done|]. simpl.
    apply utf8_cp_scalar in Hc as [b Hb]. unfold utf8_octets at 1.
    by rewrite Hb, IH. }
  rewrite E. cbn [bind]. by rewrite flat_map_concat_map.
Qed.

Lemma flat_map_flat_map {A B C} (f : A -> list B) (g : B -> list C) l :
  flat_map g (flat_map f l) = flat_map (fun a => flat_map g (f a)) l.
Proof. induction l; simpl; [done|]. by rewrite flat_map_app, IHl. Qed.

Lemma flat_map_ext_Forall {A B} (P : A -> Prop) (f g : A -> list B) l :
  Forall P l -> (forall a, P a -> f a = g a) -> flat_map f l = flat_map g l.
Proof. intros Hl E. induction Hl; simpl; [done|]. by rewrite E, IHHl. Qed.

Lemma quote_octets s safe :
  text s ->
  Urllib.quote s safe
  = Ok (flat_map (fun c => flat_map (Urllib.quoter (Urllib.ascii_ignore safe))
                                    (utf8_octets c)) s).
Proof.
  intros H. unfold Urllib.quote. destruct s as [|c s]; [done|].
  rewrite (encode_utf8_octets _ H). cbn [bind]. unfold Urllib.quote_from_bytes.
  by rewrite flat_map_flat_map.
Qed.

Lemma contains_above (l : str) (bound b : N) :
  Forall (fun x => (x <? bound) = true) l -> bound <= b -> contains b l = false.
Proof.
  unfold contains. induction 1 as [|x l Hx _ IH]; intros Hb; simpl; [done|].
  rewrite IH by done. apply N.ltb_lt in Hx.
  destruct (N.eqb_spec b x); [lia|done].
Qed.

Lemma utf8_octets_high c :
  0x80 <= c -> Forall (fun b => (0x80 <= b)) (utf8_octets c).
Proof.
  intros Hc. unfold utf8_octets, utf8_cp.
  destruct (N.ltb_spec c 0x80); [lia|].
  repeat match goal with
         | |- context [if ?b then _ else _] => destruct b
         end; repeat (apply Forall_cons_2;
                 [cbn beta;
                  match goal with
                  | |- _ <= ?k + _ =>
                      apply (N.le_trans _ k); [by vm_compute|apply N.le_add_r]
                  end|]);
    apply Forall_nil_2.
Qed.

Lemma quoter_high safe b :
  Forall (fun x => (x <? 0x80) = true) safe -> 0x80 <= b ->
  Urllib.quoter safe b = Urllib.percent b.
Proof.
  intros Hs Hb. unfold Urllib.quoter.
  rewrite (contains_above _ 0x80); [done| |done].
  apply Forall_app. split; [|done]. vm_compute. repeat constructor.
Qed.

Lemma percent_no_space b :
  replace_char 0x20 0x2B (Urllib.percent b) = Urllib.percent b.
Proof.
  assert (H : forall n, n < 16 ->
    (if Urllib.upper_hex_digit n =? 0x20 then 0x2B else Urllib.upper_hex_digit n)
    = Urllib.upper_hex_digit n).
  { intros n Hn.
    assert (Hall : forallb (fun n => negb (Urllib.upper_hex_digit n =? 0x20))
                     (map N.of_nat (seq 0 128)) = true) by (vm_compute; reflexivity).
    apply below_128 with (c := n) in Hall; [|lia].
    by destruct (Urllib.upper_hex_digit n =? 0x20). }
  unfold Urllib.percent, replace_char. cbn [map].
  rewrite !H by (apply N.mod_lt; lia). done.
Qed.

Lemma replace_char_flat_map {A} old new (f : A -> str) l :
  replace_char old new (flat_map f l)
  = flat_map (fun a => replace_char old new (f a)) l.
Proof.
  unfold replace_char. induction l; simpl; [done|].
  by rewrite map_app, IHl.
Qed.

Lemma escape_cp_high c :
  0x80 <= c -> escape_cp c = flat_map Urllib.percent (utf8_octets c).
Proof.
  intros Hc. unfold escape_cp, is_alnum, kept.
  rewrite !(contains_above _ 0x80) by (done || (vm_compute; repeat constructor)).
  destruct (N.eqb_spec c 0x20); [lia|].
  repeat match goal with
         | |- context [?a <=? ?b] => destruct (N.leb_spec a b)
         end; simpl; try done; lia.
Qed.

(** Without a space in sight, [quote] leaves the kept characters. *)
Lemma quoter_plain c :
  is_scalar c = true -> c <> 0x20 ->
  flat_map (Urllib.quoter (Urllib.ascii_ignore kept)) (utf8_octets c) = escape_cp c.
Proof.
  intros Hs Hc. destruct (N.lt_ge_cases c 0x80) as [Hlt|Hge].
  - assert (Hall : forallb (fun c =>
        (c =? 0x20)
        || bool_decide (flat_map (Urllib.quoter (Urllib.ascii_ignore kept))
                          (utf8_octets c) = escape_cp c))
      (map N.of_nat (seq 0 128)) = true) by (vm_compute; reflexivity).
    apply below_128 with (c := c) in Hall; [|lia].
    destruct (N.eqb_spec c 0x20); [done|]. by apply bool_decide_eq_true in Hall.
  - rewrite escape_cp_high by done.
    eapply flat_map_ext_Forall; [apply utf8_octets_high; done|].
    intros b Hb. apply quoter_high; [|done]. vm_compute. repeat constructor.
Qed.

(** With a space somewhere, the space is kept by [quote] and then turned
    into [+]; nothing else changes. *)
Lemma quoter_plus c :
  is_scalar c = true ->
  replace_char 0x20 0x2B
    (flat_map (Urllib.quoter (Urllib.ascii_ignore (kept ++ [0x20]))) (utf8_octets c))
  = escape_cp c.
Proof.
  intros Hs. destruct (N.lt_ge_cases c 0x80) as [Hlt|Hge].
  - assert (Hall : forallb (fun c =>
        bool_decide (replace_char 0x20 0x2B
                       (flat_map (Urllib.quoter (Urllib.ascii_ignore (kept ++ [0x20])))
                          (utf8_octets c)) = escape_cp c))
      (map N.of_nat (seq 0 128)) = true) by (vm_compute; reflexivity).
    apply below_128 with (c := c) in Hall; [|lia].
    by apply bool_decide_eq_true in Hall.
  - rewrite escape_cp_high by done. rewrite replace_char_flat_map.
    eapply flat_map_ext_Forall; [apply utf8_octets_high; done|].
    intros b Hb. cbn beta. rewrite quoter_high; [apply percent_no_space| |done].
    vm_compute. repeat constructor.
Qed.

Lemma contains_false c s : contains c s = false -> Forall (fun x => x <> c) s.
Proof.
  unfold contains. induction s as [|x s IH]; simpl; [constructor|].
  destruct (N.eqb_spec c x); [done|]. intros H. constructor; [congruence|auto].
Qed.

Lemma quote_plus_escape s :
  text s -> Urllib.quote_plus s kept = Ok (escape s).
Proof.
  intros H. unfold Urllib.quote_plus, escape.
  destruct (contains 0x20 s) eqn:E.
  - rewrite quote_octets by done. cbn [bind]. f_equal.
    rewrite replace_char_flat_map.
    eapply flat_map_ext_Forall; [exact H|]. intros c Hc. by apply quoter_plus.
  - rewrite quote_octets by done. f_equal.
    apply contains_false in E.
    eapply (flat_map_ext_Forall (fun c => is_scalar c = true /\ c <> 0x20)).
    + apply Forall_and. done.
    + intros c [Hc Hne]. by apply quoter_plain.
Qed.

(** ** The URL *)

Lemma urlencode_escape params :
  dict_text params -> Urllib.urlencode params kept = Ok (query_string params).
Proof.
  intros H. unfold Urllib.urlencode, query_string.
  assert (E : mapM (Urllib.urlencode_pair kept) params = Ok (map query_pair params)).
  { induction H as [|[k v] p [Hk Hv] _ IH]; [done|]. cbn [mapM map].
    unfold Urllib.urlencode_pair at 1. cbn [fst snd] in *.
    rewrite !quote_plus_escape by done. cbn [bind]. by rewrite IH. }
  by rewrite E.
Qed.

Lemma join_cons_nonempty sep (x : str) l : x <> [] -> join sep (x :: l) <> [].
Proof. destruct x; [done|]. by destruct l. Qed.

Lemma query_string_nonempty params : params <> [] -> query_string params <> [].
Proof.
  destruct params as [|kv p]; [done|]. intros _. unfold query_string. cbn [map].
  apply join_cons_nonempty. unfold query_pair.
  intros E. apply (f_equal length) in E. rewrite !length_app in E.
  change (length (lit "=")) with 1%nat in E. simpl in E. lia.
Qed.

Lemma build_url_text domain code params :
  dict_text params ->
  build_url domain code params
  = Ok (match params with
        | [] => base_url domain code
        | _ :: _ => base_url domain code ++ lit "?" ++ query_string params
        end).
Proof.
  intros H. unfold build_url. change (lit "-_.:") with kept.
  rewrite (urlencode_escape _ H). cbn [bind].
  fold (norm_domain domain). fold (base_url domain code).
  destruct params as [|kv p]; [done|].
  pose proof (query_string_nonempty (kv :: p)) as Hne.
  destruct (query_string (kv :: p)); [by destruct Hne|done].
Qed.

(** C5. [build_url] returns https://{domain}/r/{survey_code} (domain and
    code as normalized, which leaves clean ones as they are), followed by
    [?] and the percent-encoded query string when the mapping is not empty
    and by nothing when it is empty. The query lists the entries in
    insertion order; reserved characters are percent-encoded except the
    colon, and hyphen, underscore, period and colon are left as they are.
    The store_id/order_id example yields the URL of the specification. *)
Theorem build_url_spec :
  (forall domain code : str,
      build_url domain code [] = Ok (base_url domain code))
  /\ (forall (domain code : str) (params : dict),
      params <> [] -> dict_text params ->
      build_url domain code params
      = Ok (base_url domain code ++ lit "?" ++ query_string params))
  /\ (forall domain code : str,
      strip domain = domain -> rstrip (lit "/") domain = domain ->
      strip code = code ->
      base_url domain code = lit "https://" ++ domain ++ lit "/r/" ++ code)
  /\ Forall (fun c => escape [c] = if contains c kept then [c] else Urllib.percent c)
            reserved
  /\ (forall s : str, Forall (fun c => contains c kept = true) s -> escape s = s)
  /\ escape (lit "a&b=c/d?e:f") = lit "a%26b%3Dc%2Fd%3Fe:f"
  /\ build_url (lit "pt.surveymonkey.com") (lit "9B9GS555")
       [(lit "store_id", VStr (lit "045")); (lit "order_id", VStr (lit "123456"))]
     = Ok (lit "https://pt.surveymonkey.com/r/9B9GS555?store_id=045&order_id=123456").
Proof.
  split; [|split; [|split; [|split; [|split; [|split]]]]].
  - intros domain code. by rewrite build_url_text by constructor.
  - intros domain code [|kv p] Hne Ht; [done|]. by rewrite build_url_text.
  - intros domain code Hd Hs Hc. unfold base_url, norm_domain.
    by rewrite Hd, Hs, Hc.
  - assert (Hall : forallb (fun c => bool_decide
        (escape [c] = if contains c kept then [c] else Urllib.percent c))
        reserved = true) by (vm_compute; reflexivity).
    rewrite forallb_forall in Hall. apply Forall_forall. intros c Hc.
    apply list_elem_of_In, Hall in Hc. by apply bool_decide_eq_true in Hc.
  - intros s Hs. unfold escape.
    induction Hs as [|c s Hc _ IH]; [done|]. cbn [flat_map]. rewrite IH.
    unfold escape_cp. rewrite Hc, orb_true_r.
    assert (Hsp : contains 0x20 kept = false) by (vm_compute; reflexivity).
    destruct (N.eqb_spec c 0x20) as [->|]; [congruence|done].
  - vm_compute. reflexivity.
  - vm_compute. reflexivity.
Qed.

Lemma build_url_spec_witness :
  build_url (lit "a.b") (lit "c") [(lit "k", VStr (lit "v w"))]
  = Ok (base_url (lit "a.b") (lit "c")
        ++ lit "?" ++ query_string [(lit "k", VStr (lit "v w"))])
  /\ base_url (lit "a.b") (lit "c") = lit "https://" ++ lit "a.b" ++ lit "/r/" ++ lit "c"
  /\ escape (lit "-_.:") = lit "-_.:".
Proof.
  split; [|split].
  - apply (proj1 (proj2 build_url_spec)); [done|].
    repeat constructor; apply text_lit_ascii.
  - apply (proj1 (proj2 (proj2 build_url_spec))); vm_compute; reflexivity.
  - apply (proj1 (proj2 (proj2 (proj2 (proj2 build_url_spec))))).
    vm_compute. repeat constructor.
Defined.

(** ** The script *)

Lemma truthy_nonempty s : truthy s = true <-> s <> [].
Proof. by destruct s. Qed.

Lemma assemble_params_cases w now :
  assemble_params w now
  = (if truthy (store_id w) then [(lit "store_id", VStr (store_id w))] else [])
    ++ (if truthy (order_id w) then [(lit "order_id", VStr (order_id w))] else [])
    ++ (if add_ts w then [(lit "ts", VStr (isoformat_seconds now ++ lit "Z"))] else []).
Proof.
  unfold assemble_params.
  destruct (truthy (store_id w)), (truthy (order_id w)), (add_ts w); reflexivity.
Qed.

Lemma text_isoformat now : text (isoformat_seconds now ++ lit "Z").
Proof.
  assert (Hz : forall n s, text s -> text (zfill n s)).
  { intros n s Hs. unfold zfill. apply text_app; [|done].
    apply Forall_forall. intros c Hc%list_elem_of_In%repeat_spec. by subst. }
  apply text_app; [|apply text_lit_ascii].
  unfold isoformat_seconds, str_of_N.
  repeat (apply text_app; [solve [apply Hz, text_lit_ascii | apply text_lit_ascii]|]).
  apply Hz, text_lit_ascii.
Qed.

Lemma assemble_params_text w now :
  widgets_text w -> dict_text (assemble_params w now).
Proof.
  intros (Hs & Ho & _). rewrite assemble_params_cases. unfold dict_text.
  repeat apply Forall_app_2.
  - destruct (truthy (store_id w)); repeat constructor; done.
  - destruct (truthy (order_id w)); repeat constructor; done.
  - destruct (add_ts w); repeat constructor. apply text_isoformat.
Qed.

Lemma assemble_params_keys w now :
  keys (assemble_params w now) ⊆ param_names.
Proof.
  rewrite assemble_params_cases. unfold keys, param_names.
  destruct (truthy (store_id w)), (truthy (order_id w)), (add_ts w);
    cbn [map app fst]; intros x; rewrite ?elem_of_cons, ?elem_of_nil; tauto.
Qed.

Lemma assemble_params_wf w now : dict_wf (assemble_params w now).
Proof.
  rewrite assemble_params_cases. unfold dict_wf, keys.
  destruct (truthy (store_id w)), (truthy (order_id w)), (add_ts w);
    cbn [map app fst]; repeat (apply NoDup_cons_2 || apply NoDup_nil_2);
    rewrite ?elem_of_cons, ?elem_of_nil; intros H;
    repeat (destruct H as [H|H]); done.
Qed.

Lemma dict_get_None d k : k ∉ keys d <-> dict_get d k = None.
Proof.
  induction d as [|[k' v'] d IH]; simpl.
  - split; [done|]. intros _ H. by apply elem_of_nil in H.
  - rewrite not_elem_of_cons, IH. destruct (str_eqb k' k) eqn:E.
    + apply str_eqb_eq in E. split; [|done]. intros [? _]. congruence.
    + apply str_eqb_neq in E. split; [by intros [_ ?]|]. intros ?. split; congruence.
Qed.

Lemma assemble_params_no_sig w now :
  dict_get (assemble_params w now) (lit "sig") = None.
Proof.
  apply dict_get_None. intros H%assemble_params_keys.
  unfold param_names in H. rewrite !elem_of_cons, elem_of_nil in H.
  destruct H as [H|[H|[H|H]]]; done.
Qed.

Lemma dict_set_fresh d k v : dict_get d k = None -> dict_set d k v = d ++ [(k, v)].
Proof.
  induction d as [|[k' v'] d IH]; simpl; [done|].
  destruct (str_eqb k' k); [done|]. intros H. by rewrite IH.
Qed.

Lemma dict_del_fresh d k v : dict_get d k = None -> dict_del (d ++ [(k, v)]) k = d.
Proof.
  induction d as [|[k' v'] d IH]; simpl.
  - by rewrite str_eqb_refl.
  - destruct (str_eqb k' k); [done|]. intros H. by rewrite IH.
Qed.

Lemma dict_get_app_fresh d k v k' :
  dict_get (d ++ [(k, v)]) k'
  = match dict_get d k' with
    | Some x => Some x
    | None => if str_eqb k k' then Some v else None
    end.
Proof.
  induction d as [|[k0 v0] d IH]; simpl; [done|]. by destruct (str_eqb k0 k').
Qed.

Lemma text_hex b : text (HMAC.hex b).
Proof.
  eapply Forall_impl; [apply hex_lower|]. intros c. cbn beta.
  unfold is_lower_hex, is_scalar, is_codepoint, is_surrogate.
  repeat match goal with
         | |- context [?a <? ?b] => destruct (N.ltb_spec a b)
         | |- context [?a <=? ?b] => destruct (N.leb_spec a b)
         end; simpl; try done; lia.
Qed.

Lemma dict_text_snoc d k v :
  dict_text d -> text k -> text (str_of v) -> dict_text (d ++ [(k, v)]).
Proof. intros. apply Forall_app_2; [done|]. by repeat constructor. Qed.

(** What [sign_params] does, case by case. *)
Lemma sign_params_signed w p :
  use_sig w = true -> secret w <> [] -> text (secret w) -> dict_text p ->
  dict_get p (lit "sig") = None ->
  exists sig, make_sig (secret w) p = Ok sig
              /\ sign_params w p = Ok (p ++ [(lit "sig", VStr sig)]).
Proof.
  intros Hu Hs Ht Hp Hn. unfold sign_params.
  apply truthy_nonempty in Hs. rewrite Hu, Hs. cbn [andb].
  destruct (make_sig_spec _ _ Ht Hp) as (key & base & _ & _ & E & _).
  rewrite E. cbn [bind]. rewrite dict_set_fresh by done. eauto.
Qed.

Lemma sign_params_skipped w p :
  ~ (use_sig w = true /\ secret w <> []) -> sign_params w p = Ok p.
Proof.
  intros H. unfold sign_params. rewrite <- truthy_nonempty in H.
  destruct (use_sig w), (truthy (secret w)); try done. by destruct H.
Qed.

#[local] Instance signing_dec w : Decision (signing w).
Proof. unfold signing. apply _. Defined.

(** The URL is shown only if it is well-formed text: the query always is,
    the base is when the survey code is. *)
Lemma text_flat_map {A} (f : A -> str) l :
  (forall a, text (f a)) -> text (flat_map f l).
Proof. intros H. induction l; simpl; [constructor|]. by apply text_app. Qed.

Lemma text_percent b : text (Urllib.percent b).
Proof.
  assert (Hall : forallb (fun n => is_scalar (Urllib.upper_hex_digit n))
                   (map N.of_nat (seq 0 128)) = true) by (vm_compute; reflexivity).
  assert (H : forall n, n < 16 -> is_scalar (Urllib.upper_hex_digit n) = true).
  { intros n Hn. apply (below_128 _ Hall). lia. }
  unfold Urllib.percent.
  repeat (apply Forall_cons_2; [first [reflexivity | apply H, N.mod_lt; lia]|]).
  apply Forall_nil_2.
Qed.

Lemma contains_lit_scalar c (s : string) :
  contains c (lit s) = true -> is_scalar c = true.
Proof.
  unfold contains. intros (x & Hin & E)%existsb_exists.
  apply N.eqb_eq in E as ->.
  pose proof (text_lit_ascii s) as H. unfold text in H. rewrite Forall_forall in H.
  by apply H, list_elem_of_In.
Qed.

Lemma is_alnum_scalar c : is_alnum c = true -> is_scalar c = true.
Proof.
  unfold is_alnum, is_scalar, is_codepoint, is_surrogate.
  repeat match goal with
         | |- context [?a <? ?b] => destruct (N.ltb_spec a b)
         | |- context [?a <=? ?b] => destruct (N.leb_spec a b)
         end; simpl; try done; lia.
Qed.

Lemma text_escape_cp c : text (escape_cp c).
Proof.
  unfold escape_cp. destruct (c =? 0x20); [apply text_lit_ascii|].
  destruct (is_alnum c) eqn:Ea; [by repeat constructor; apply is_alnum_scalar|].
  destruct (contains c (lit "_.-~")) eqn:E1.
  { repeat constructor. by apply contains_lit_scalar in E1. }
  destruct (contains c kept) eqn:E2.
  { repeat constructor. by apply contains_lit_scalar in E2. }
  cbn [orb]. apply text_flat_map, text_percent.
Qed.

Lemma text_escape s : text (escape s).
Proof. apply text_flat_map, text_escape_cp. Qed.

Lemma text_query_string p : text (query_string p).
Proof.
  unfold query_string. apply text_join; [apply text_lit_ascii|].
  apply Forall_forall. intros x Hx.
  apply list_elem_of_In, in_map_iff in Hx as (kv & <- & _). unfold query_pair.
  auto using text_app, text_escape, text_lit_ascii.
Qed.

Lemma isspace_scalar c : isspace c = true -> is_scalar c = true.
Proof.
  intros H. destruct (N.le_gt_cases c 0x3000) as [Hle|Hgt].
  - unfold is_scalar, is_codepoint, is_surrogate.
    destruct (N.ltb_spec c 0x110000); [|lia].
    destruct (N.leb_spec 0xD800 c); [lia|done].
  - exfalso. unfold isspace in H.
    repeat match type of H with
           | context [c =? ?k] => rewrite (proj2 (N.eqb_neq c k)) in H by lia
           | context [c <=? ?k] => rewrite (proj2 (N.leb_gt c k)) in H by lia
           end.
    rewrite ?andb_false_r in H. discriminate H.
Qed.

Lemma lstrip_by_split p s :
  exists ws, s = ws ++ lstrip_by p s /\ Forall (fun c => p c = true) ws.
Proof.
  induction s as [|x s (ws & E & H)]; [by exists []|]. simpl.
  destruct (p x) eqn:Ep; [|by exists []].
  exists (x :: ws). split; [simpl; by rewrite <- E|by constructor].
Qed.

Lemma rstrip_by_split p s :
  exists ws, s = rstrip_by p s ++ ws /\ Forall (fun c => p c = true) ws.
Proof.
  destruct (lstrip_by_split p (rev s)) as (ws & E & H).
  exists (rev ws). unfold rstrip_by. split.
  - rewrite <- rev_app_distr, <- E. by rewrite rev_involutive.
  - apply Forall_forall. intros c Hc. rewrite Forall_forall in H. apply H.
    by apply list_elem_of_In, in_rev, list_elem_of_In in Hc.
Qed.

Lemma text_strip s : text (strip s) <-> text s.
Proof.
  unfold strip.
  destruct (lstrip_by_split isspace s) as (ws1 & E1 & H1).
  destruct (rstrip_by_split isspace (lstrip_by isspace s)) as (ws2 & E2 & H2).
  assert (T1 : text ws1) by (eapply Forall_impl; [exact H1|apply isspace_scalar]).
  assert (T2 : text ws2) by (eapply Forall_impl; [exact H2|apply isspace_scalar]).
  split.
  - intros H. rewrite E1, E2. auto using text_app.
  - intros H. rewrite E1, E2 in H. unfold text in H.
    apply Forall_app in H as [_ H]. by apply Forall_app in H as [H _].
Qed.

Lemma norm_domain_option d : norm_domain (domain_text d) = domain_text d.
Proof. destruct d; vm_compute; reflexivity. Qed.

Lemma text_shown_url d code ps :
  text (match ps with
        | [] => base_url (domain_text d) code
        | _ :: _ => base_url (domain_text d) code ++ lit "?" ++ query_string ps
        end)
  <-> text code.
Proof.
  assert (Hd : text (domain_text d)) by (destruct d; apply text_lit_ascii).
  assert (Hb : text (base_url (domain_text d) code) <-> text code).
  { unfold base_url. rewrite norm_domain_option. split.
    - intros H. unfold text in H. apply Forall_app in H as [_ H].
      apply Forall_app in H as [_ H]. apply Forall_app in H as [_ H].
      by apply text_strip.
    - intros H%text_strip. auto using text_app, text_lit_ascii. }
  destruct ps as [|kv ps]; [done|]. rewrite <- Hb. split.
  - intros H. unfold text in H. by apply Forall_app in H as [H _].
  - intros H. auto using text_app, text_lit_ascii, text_query_string.
Qed.

Lemma st_write_text e : text (element_text e) -> st_write e = Ok e.
Proof.
  intros [b E]%encode_utf8_text. unfold st_write. by rewrite E.
Qed.

(** The three elements the script writes, once the URL is built. *)
Lemma show_url url (params : dict) :
  text url ->
  (let* heading := st_write (Subheader (lit "URL final do survey")) in
   let* code := st_write (Code url) in
   let* link := st_write (Markdown (lit "[Abrir link agora](" ++ url ++ lit ")")) in
   Ok (Page params url [heading; code; link]))
  = Ok (Page params url
          [Subheader (lit "URL final do survey");
           Code url;
           Markdown (lit "[Abrir link agora](" ++ url ++ lit ")")]).
Proof.
  intros H.
  rewrite !st_write_text; cbn [element_text bind];
    auto using text_app, text_lit_ascii.
Qed.

(** A run of the script on well-formed text, in full. *)
Lemma script_run w now :
  widgets_text w ->
  exists ps url,
    sign_params w (assemble_params w now) = Ok ps
    /\ dict_text ps
    /\ build_url (domain_text (domain w)) (survey_code w) ps = Ok url
    /\ script w now
       = Ok (Page ps url
               [Subheader (lit "URL final do survey");
                Code url;
                Markdown (lit "[Abrir link agora](" ++ url ++ lit ")")]).
Proof.
  intros Hw. pose proof (assemble_params_text w now Hw) as Hp.
  destruct Hw as (_ & _ & Hsec & Hcode).
  assert (exists ps, sign_params w (assemble_params w now) = Ok ps /\ dict_text ps)
    as (ps & Eps & Hps).
  { destruct (decide (signing w)) as [[Hu Hs]|Hn].
    - destruct (sign_params_signed w _ Hu Hs Hsec Hp (assemble_params_no_sig w now))
        as (sig & Hsig & E).
      eexists. split; [exact E|]. apply dict_text_snoc; [done|apply text_lit_ascii|].
      unfold make_sig in Hsig.
      apply bind_Ok in Hsig as (base & _ & Hsig).
      apply bind_Ok in Hsig as (key & _ & [= <-]). apply text_hex.
    - exists (assemble_params w now). split; [by apply sign_params_skipped|done]. }
  exists ps. eexists. split; [done|]. split; [done|].
  unfold script. rewrite Eps. cbn [bind]. rewrite (build_url_text _ _ _ Hps).
  cbn [bind]. split; [done|]. apply show_url. by apply text_shown_url.
Qed.

Lemma utf8_octets_nonempty c : is_scalar c = true -> utf8_octets c <> [].
Proof.
  unfold is_scalar. intros [H1 H2]%andb_true_iff.
  unfold utf8_octets, utf8_cp. rewrite H1.
  destruct (is_surrogate c); [discriminate H2|].
  destruct (c <? 0x80); [intros E; discriminate E|].
  destruct (c <? 0x800); [intros E; discriminate E|].
  destruct (c <? 0x10000); intros E; discriminate E.
Qed.

Lemma encode_utf8_nonempty s key : encode_utf8 s = Ok key -> s <> [] -> key <> [].
Proof.
  intros E Hs.
  assert (Ht : text s) by (apply encode_utf8_text; eauto).
  rewrite (encode_utf8_octets _ Ht) in E. injection E as <-.
  destruct s as [|c s]; [done|]. apply Forall_cons in Ht as [Hc _].
  apply utf8_octets_nonempty in Hc. cbn [flat_map].
  destruct (utf8_octets c); done.
Qed.

(** C7. On well-formed text the script ends with a page whose parameters
    hold a sig entry if and only if signing was requested and the secret
    is not empty; a sig entry that is present is the signature under the
    non-empty key of that secret; when signing is skipped the parameters
    are those assembled from the widgets (store_id, order_id, ts at most),
    and the URL is built from them alone. *)
Theorem sig_iff_requested_and_secret (w : widgets) (now : datetime) :
  widgets_text w ->
  exists pg : page,
    script w now = Ok pg
    /\ (is_Some (dict_get (params pg) (lit "sig"))
        <-> use_sig w = true /\ secret w <> [])
    /\ (forall v, dict_get (params pg) (lit "sig") = Some v ->
        exists key base : bytes,
          encode_utf8 (secret w) = Ok key /\ key <> []
          /\ v = VStr (HMAC.hexdigest key base))
    /\ build_url (domain_text (domain w)) (survey_code w) (params pg)
       = Ok (url_final pg)
    /\ (~ (use_sig w = true /\ secret w <> []) ->
        params pg = assemble_params w now
        /\ keys (params pg) ⊆ param_names
        /\ (lit "sig" ∉ keys (params pg))
        /\ url_final pg
           = match assemble_params w now with
             | [] => base_url (domain_text (domain w)) (survey_code w)
             | _ :: _ =>
                 base_url (domain_text (domain w)) (survey_code w)
                 ++ lit "?" ++ query_string (assemble_params w now)
             end).
Proof.
  intros Hw. destruct (script_run w now Hw) as (ps & url & Eps & Hps & Eurl & E).
  eexists. split; [exact E|]. cbn [params url_final].
  pose proof (assemble_params_no_sig w now) as Hno.
  pose proof (assemble_params_text w now Hw) as Hp.
  destruct (decide (signing w)) as [[Hu Hs]|Hn].
  - destruct (sign_params_signed w _ Hu Hs (proj1 (proj2 (proj2 Hw))) Hp Hno)
      as (sig & Hsig & E').
    rewrite E' in Eps. injection Eps as <-.
    assert (Hget : dict_get (assemble_params w now ++ [(lit "sig", VStr sig)]) (lit "sig")
                   = Some (VStr sig)).
    { by rewrite dict_get_app_fresh, Hno, str_eqb_refl. }
    split; [by rewrite Hget|]. split; [|split; [done|by intros []]].
    intros v Hv. rewrite Hget in Hv. injection Hv as <-.
    unfold make_sig in Hsig.
    apply bind_Ok in Hsig as (base & _ & Hsig).
    apply bind_Ok in Hsig as (key & Hkey & [= <-]).
    exists key, base. split; [done|]. split; [|done].
    by apply (encode_utf8_nonempty (secret w)).
  - rewrite (sign_params_skipped _ _ Hn) in Eps. injection Eps as <-.
    rewrite Hno. split.
    { split; [by intros [? [=]]|]. intros H. by destruct Hn. }
    split; [by intros v [=]|]. split; [done|]. intros _.
    split; [done|]. split; [apply assemble_params_keys|].
    split; [by apply dict_get_None|].
    rewrite (build_url_text _ _ _ Hp) in Eurl. by injection Eurl as <-.
Qed.

Lemma sig_iff_requested_and_secret_witness :
  exists pg : page,
    script (Widgets PtSurveyMonkey (lit "9B9GS555") (lit "045") (lit "123456")
              false true []) (Datetime 2024 3 7 9 5 1) = Ok pg
    /\ (lit "sig" ∉ keys (params pg))
    /\ url_final pg
       = lit "https://pt.surveymonkey.com/r/9B9GS555?store_id=045&order_id=123456".
Proof.
  destruct (sig_iff_requested_and_secret
              (Widgets PtSurveyMonkey (lit "9B9GS555") (lit "045") (lit "123456")
                 false true []) (Datetime 2024 3 7 9 5 1))
    as (pg & E & _ & _ & _ & H).
  - repeat split; apply text_lit_ascii || constructor.
  - exists pg. split; [exact E|].
    destruct H as (_ & _ & Hno & Hurl); [by intros [_ ?]|].
    split; [exact Hno|]. rewrite Hurl. vm_compute. reflexivity.
Defined.

(** C8, as the specification has it: with an empty survey code the
    script would show no URL. The script shows one. *)
Lemma empty_survey_code_still_builds :
  script (Widgets PtSurveyMonkey [] (lit "045") (lit "123456") false false [])
         (Datetime 2024 3 7 9 5 1)
  = Ok (Page [(lit "store_id", VStr (lit "045")); (lit "order_id", VStr (lit "123456"))]
          (lit "https://pt.surveymonkey.com/r/?store_id=045&order_id=123456")
          [Subheader (lit "URL final do survey");
           Code (lit "https://pt.surveymonkey.com/r/?store_id=045&order_id=123456");
           Markdown (lit "[Abrir link agora](https://pt.surveymonkey.com/r/?store_id=045&order_id=123456)")]).
Proof. vm_compute. reflexivity. Qed.

(** C8, amended. The script checks neither the domain nor the survey code:
    on well-formed text (the survey code included, since showing the URL
    encodes it) it always builds a URL and shows it (a heading, the URL as
    code, the URL as a link, and nothing else). The domain is one of
    the two host names of the select box, never empty; the survey code is
    used as typed, stripped, so an empty one gives the path /r/ with an
    empty last segment. *)
Theorem script_always_builds (w : widgets) (now : datetime) :
  widgets_text w ->
  exists pg : page,
    script w now = Ok pg
    /\ url_final pg
       = lit "https://" ++ domain_text (domain w) ++ lit "/r/" ++ strip (survey_code w)
         ++ match params pg with
            | [] => []
            | _ :: _ => lit "?" ++ query_string (params pg)
            end
    /\ elements pg
       = [Subheader (lit "URL final do survey");
          Code (url_final pg);
          Markdown (lit "[Abrir link agora](" ++ url_final pg ++ lit ")")]
    /\ domain_text (domain w) <> []
    /\ (survey_code w = [] ->
        url_final pg
        = lit "https://" ++ domain_text (domain w) ++ lit "/r/"
          ++ match params pg with
             | [] => []
             | _ :: _ => lit "?" ++ query_string (params pg)
             end).
Proof.
  intros Hw. destruct (script_run w now Hw) as (ps & url & Eps & Hps & Eurl & E).
  eexists. split; [exact E|]. cbn [params url_final elements].
  rewrite (build_url_text _ _ _ Hps) in Eurl. injection Eurl as <-.
  assert (Hd : norm_domain (domain_text (domain w)) = domain_text (domain w)).
  { destruct (domain w); vm_compute; reflexivity. }
  assert (Hurl : match ps with
                 | [] => base_url (domain_text (domain w)) (survey_code w)
                 | _ :: _ => base_url (domain_text (domain w)) (survey_code w)
                             ++ lit "?" ++ query_string ps
                 end
                 = lit "https://" ++ domain_text (domain w) ++ lit "/r/"
                   ++ strip (survey_code w)
                   ++ match ps with
                      | [] => []
                      | _ :: _ => lit "?" ++ query_string ps
                      end).
  { unfold base_url. rewrite Hd. destruct ps.
    - by rewrite app_nil_r.
    - by rewrite <- !app_assoc. }
  split; [exact Hurl|]. split; [done|]. split.
  - destruct (domain w); intros H; discriminate H.
  - intros Hc. etransitivity; [exact Hurl|]. by rewrite Hc.
Qed.

Lemma script_always_builds_witness :
  exists pg : page,
    script (Widgets WwwSurveyMonkey [] [] [] false false []) (Datetime 2024 3 7 9 5 1)
    = Ok pg
    /\ url_final pg = lit "https://www.surveymonkey.com/r/".
Proof.
  destruct (script_always_builds
              (Widgets WwwSurveyMonkey [] [] [] false false [])
              (Datetime 2024 3 7 9 5 1))
    as (pg & E & _ & _ & _ & Hurl).
  - repeat split; constructor.
  - exists pg. split; [exact E|]. rewrite Hurl by reflexivity.
    assert (Hp : params pg = []).
    { vm_compute in E. by injection E as <-. }
    rewrite Hp. vm_compute. reflexivity.
Defined.

(** C10. When the script signs, the signature is computed on the
    parameters as they stand before the sig entry is stored: the final
    mapping is those parameters followed by sig, they hold no sig entry
    themselves (their keys are among store_id, order_id, ts), every other
    final entry is one of them, and dropping sig from the final mapping and
    signing again gives the stored signature. *)
Theorem sig_covers_params_before (w : widgets) (now : datetime) :
  widgets_text w -> use_sig w = true -> secret w <> [] ->
  exists (pg : page) (sig : str),
    script w now = Ok pg
    /\ make_sig (secret w) (assemble_params w now) = Ok sig
    /\ params pg = assemble_params w now ++ [(lit "sig", VStr sig)]
    /\ dict_get (params pg) (lit "sig") = Some (VStr sig)
    /\ dict_get (assemble_params w now) (lit "sig") = None
    /\ keys (assemble_params w now) ⊆ param_names
    /\ (forall k, k <> lit "sig" ->
        dict_get (params pg) k = dict_get (assemble_params w now) k)
    /\ dict_del (params pg) (lit "sig") = assemble_params w now
    /\ make_sig (secret w) (dict_del (params pg) (lit "sig")) = Ok sig.
Proof.
  intros Hw Hu Hs.
  destruct (script_run w now Hw) as (ps & url & Eps & Hps & Eurl & E).
  pose proof (assemble_params_no_sig w now) as Hno.
  pose proof (assemble_params_text w now Hw) as Hp.
  destruct (sign_params_signed w _ Hu Hs (proj1 (proj2 (proj2 Hw))) Hp Hno)
    as (sig & Hsig & E').
  rewrite E' in Eps. injection Eps as <-.
  eexists. exists sig. split; [exact E|]. cbn [params].
  split; [done|]. split; [done|].
  split; [by rewrite dict_get_app_fresh, Hno, str_eqb_refl|].
  split; [done|]. split; [apply assemble_params_keys|].
  split.
  - intros k Hk. rewrite dict_get_app_fresh.
    destruct (dict_get (assemble_params w now) k); [done|].
    destruct (str_eqb (lit "sig") k) eqn:Ek; [|done].
    apply str_eqb_eq in Ek. congruence.
  - rewrite dict_del_fresh by done. done.
Qed.

Lemma sig_covers_params_before_witness :
  exists (pg : page) (sig : str),
    script (Widgets PtSurveyMonkey (lit "9B9GS555") (lit "045") (lit "123456")
              true true (lit "s3cret")) (Datetime 2024 3 7 9 5 1) = Ok pg
    /\ dict_get (params pg) (lit "sig") = Some (VStr sig)
    /\ make_sig (lit "s3cret") (dict_del (params pg) (lit "sig")) = Ok sig.
Proof.
  destruct (sig_covers_params_before
              (Widgets PtSurveyMonkey (lit "9B9GS555") (lit "045") (lit "123456")
                 true true (lit "s3cret")) (Datetime 2024 3 7 9 5 1))
    as (pg & sig & E & _ & _ & Hget & _ & _ & _ & _ & Hre).
  - repeat split; apply text_lit_ascii.
  - reflexivity.
  - intros H. discriminate H.
  - exists pg, sig. split; [exact E|]. split; [exact Hget|exact Hre].
Defined.

(** C9. [make_sig] is a function of its two arguments alone: two calls on
    the same secret and mapping have the same outcome, and on well-formed
    text that outcome is a value. *)
Theorem make_sig_deterministic :
  (forall (secret : str) (params : dict) (r1 r2 : result str),
      make_sig secret params = r1 -> make_sig secret params = r2 -> r1 = r2)
  /\ (forall (secret : str) (params : dict),
      text secret -> dict_text params ->
      exists sig, make_sig secret params = Ok sig).
Proof.
  split.
  - intros secret params r1 r2 <- <-. reflexivity.
  - intros secret params Hs Hp.
    destruct (make_sig_spec secret params Hs Hp) as (key & base & _ & _ & E & _).
    eauto.
Qed.

Lemma make_sig_deterministic_witness :
  make_sig (lit "k")
    [(lit "store_id", VStr (lit "045")); (lit "order_id", VStr (lit "123456"))]
  = Ok (lit "8050de7784627ee81c0beb550e6d59b0e0c8c211932f3d578d7e6cb49843ee15")
  /\ exists sig, make_sig (lit "k") [(lit "store_id", VStr (lit "045"))] = Ok sig.
Proof.
  split.
  - apply (proj1 make_sig_deterministic (lit "k")
             [(lit "store_id", VStr (lit "045")); (lit "order_id", VStr (lit "123456"))]).
    + reflexivity.
    + vm_compute. reflexivity.
  - apply (proj2 make_sig_deterministic).
    + apply text_lit_ascii.
    + repeat constructor; apply text_lit_ascii.
Defined.

(** ** Sensitivity of the signature *)

(** C4, as the specification has it: changed values, or a changed secret,
    would change the signature. Two mappings with the same keys and
    different values for each key share their canonical string and so
    their signature; a secret and the same secret followed by U+0000 give
    the same HMAC key, and so the same signature. *)
Lemma changed_values_same_signature :
  dict_get [(lit "a", VStr (lit "1")); (lit "b", VStr (lit "2&b=3"))] (lit "a")
  <> dict_get [(lit "a", VStr (lit "1&b=2")); (lit "b", VStr (lit "3"))] (lit "a")
  /\ canon_query [(lit "a", VStr (lit "1")); (lit "b", VStr (lit "2&b=3"))]
     = canon_query [(lit "a", VStr (lit "1&b=2")); (lit "b", VStr (lit "3"))]
  /\ make_sig (lit "k") [(lit "a", VStr (lit "1")); (lit "b", VStr (lit "2&b=3"))]
     = make_sig (lit "k") [(lit "a", VStr (lit "1&b=2")); (lit "b", VStr (lit "3"))]
  /\ lit "k" <> lit "k" ++ [0]
  /\ make_sig (lit "k") [(lit "a", VStr (lit "1"))]
     = make_sig (lit "k" ++ [0]) [(lit "a", VStr (lit "1"))]
  /\ exists sig,
      make_sig (lit "k") [(lit "a", VStr (lit "1")); (lit "b", VStr (lit "2&b=3"))]
      = Ok sig.
Proof.
  split; [|split; [|split; [|split; [|split]]]].
  - vm_compute. intros H. discriminate H.
  - vm_compute. reflexivity.
  - vm_compute. reflexivity.
  - vm_compute. intros H. discriminate H.
  - vm_compute. reflexivity.
  - eexists. vm_compute. reflexivity.
Qed.

Lemma contains_app c a b : contains c (a ++ b) = contains c a || contains c b.
Proof. unfold contains. apply existsb_app. Qed.

Lemma split_at_first c (a b r1 r2 : str) :
  contains c a = false -> contains c b = false ->
  a ++ c :: r1 = b ++ c :: r2 -> a = b /\ r1 = r2.
Proof.
  unfold contains. revert b. induction a as [|x a IH]; intros [|y b]; simpl.
  - by intros _ _ [= ->].
  - intros _ Hb [= <- _]. by rewrite N.eqb_refl in Hb.
  - intros Ha _ [= -> _]. by rewrite N.eqb_refl in Ha.
  - intros [_ Ha]%orb_false_iff [_ Hb]%orb_false_iff [= -> E].
    destruct (IH b Ha Hb E) as [-> ->]. done.
Qed.

Lemma no_delimiter_inside c (a b r : str) :
  contains c a = false -> a <> b ++ c :: r.
Proof.
  intros Ha ->. rewrite contains_app in Ha. apply orb_false_iff in Ha as [_ Ha].
  unfold contains in Ha. simpl in Ha. by rewrite N.eqb_refl in Ha.
Qed.

Lemma join_inj c (l1 l2 : list str) :
  Forall (fun x => x <> [] /\ contains c x = false) l1 ->
  Forall (fun x => x <> [] /\ contains c x = false) l2 ->
  join [c] l1 = join [c] l2 -> l1 = l2.
Proof.
  intros H1. revert l2. induction H1 as [|x l1 [Hx Hcx] Hl1 IH]; intros l2 H2 E.
  - destruct H2 as [|y l2 [Hy _] _]; [done|].
    symmetry in E. by apply join_cons_nonempty in E.
  - destruct H2 as [|y l2 [Hy Hcy] Hl2].
    { by apply join_cons_nonempty in E. }
    destruct l1 as [|x' l1], l2 as [|y' l2].
    + simpl in E. by subst.
    + change (x = y ++ c :: join [c] (y' :: l2)) in E.
      by apply no_delimiter_inside in E.
    + change (x ++ c :: join [c] (x' :: l1) = y) in E.
      symmetry in E. by apply no_delimiter_inside in E.
    + change (x ++ c :: join [c] (x' :: l1) = y ++ c :: join [c] (y' :: l2)) in E.
      apply split_at_first in E as [-> E]; [|done..].
      by rewrite (IH _ Hl2 E).
Qed.

Lemma pair_text_inj s t :
  contains 0x3D (fst s) = false -> contains 0x3D (fst t) = false ->
  pair_text s = pair_text t -> s = t.
Proof.
  destruct s as [k1 v1], t as [k2 v2]. unfold pair_text. cbn [fst snd].
  intros H1 H2 E. change (lit "=") with [0x3D] in E.
  apply (split_at_first 0x3D) in E as [-> ->]; done.
Qed.

Lemma delimiter_free_items p :
  delimiter_free p ->
  Forall (fun kt => contains 0x3D (fst kt) = false
                    /\ contains 0x26 (fst kt) = false
                    /\ contains 0x26 (snd kt) = false) (items p).
Proof.
  unfold delimiter_free, items. intros H. apply Forall_forall. intros kt Hin.
  apply list_elem_of_In, in_map_iff in Hin as (kv & <- & Hin).
  rewrite Forall_forall in H. apply (H kv). by apply list_elem_of_In.
Qed.

Lemma canon_query_items_inj p q :
  delimiter_free p -> delimiter_free q ->
  canon_query p = canon_query q -> items p ≡ₚ items q.
Proof.
  intros Hp%delimiter_free_items Hq%delimiter_free_items E. unfold canon_query in E.
  rewrite <- (sorted_Permutation (items p)) in Hp |- *.
  rewrite <- (sorted_Permutation (items q)) in Hq |- *.
  revert Hp Hq E. generalize (sorted (items p)) (sorted (items q)).
  intros l1 l2 H1 H2 E.
  assert (Hseg : forall l,
    Forall (fun kt => contains 0x3D (fst kt) = false
                      /\ contains 0x26 (fst kt) = false
                      /\ contains 0x26 (snd kt) = false) l ->
    Forall (fun x => x <> [] /\ contains 0x26 x = false) (map pair_text l)).
  { intros l Hl. apply Forall_forall. intros x Hx.
    apply list_elem_of_In, in_map_iff in Hx as ([k t] & <- & Hin).
    rewrite Forall_forall in Hl.
    destruct (Hl (k, t)) as (_ & Hk & Ht); [by apply list_elem_of_In|].
    cbn [fst snd] in *. unfold pair_text. cbn [fst snd]. split.
    - intros E'. apply (f_equal length) in E'. rewrite !length_app in E'.
      change (length (lit "=")) with 1%nat in E'. simpl in E'. lia.
    - rewrite !contains_app, Hk, Ht. reflexivity. }
  change (lit "&") with [0x26] in E.
  apply join_inj in E; [|by apply Hseg..].
  assert (El : l1 = l2).
  { clear Hseg. revert l2 H2 E. induction H1 as [|s l1 (Hs & _) _ IH];
      intros [|t l2] H2 E; try done.
    apply Forall_cons in H2 as [(Ht & _) H2]. injection E as Est E.
    apply pair_text_inj in Est; [|done..]. subst. by rewrite (IH _ H2 E). }
  by rewrite El.
Qed.

Lemma text_at_items p k t :
  dict_wf p -> (text_at p k = Some t <-> (k, t) ∈ items p).
Proof.
  intros Hwf. unfold text_at, items. split.
  - destruct (dict_get p k) as [v|] eqn:E; [|done]. intros [= <-].
    apply dict_get_elem_of in E; [|done].
    apply list_elem_of_In, in_map_iff. exists (k, v). split; [done|].
    by apply list_elem_of_In.
  - intros Hin. apply list_elem_of_In, in_map_iff in Hin as ([k' v] & [= -> <-] & Hin).
    apply list_elem_of_In, dict_get_elem_of in Hin; [|done]. by rewrite Hin.
Qed.

Lemma items_Permutation_text_at p q k :
  dict_wf p -> dict_wf q -> items p ≡ₚ items q -> text_at p k = text_at q k.
Proof.
  intros Hp Hq Hpq.
  destruct (text_at p k) as [t|] eqn:E1.
  - apply text_at_items in E1; [|done]. rewrite Hpq in E1.
    apply text_at_items in E1; [|done]. done.
  - destruct (text_at q k) as [t|] eqn:E2; [|done].
    apply text_at_items in E2; [|done]. rewrite <- Hpq in E2.
    apply text_at_items in E2; [|done]. congruence.
Qed.

Ltac Zify.zify_post_hook ::= Z.to_euclidean_division_equations.

(** UTF-8 is a prefix code on scalar values: the first octet tells the
    length, the octets tell the code point. *)
Lemma utf8_octets_shape c :
  is_scalar c = true ->
  (c < 0x80 /\ utf8_octets c = [c])
  \/ (0x80 <= c < 0x800 /\ utf8_octets c = [0xC0 + c / 64; 0x80 + c mod 64])
  \/ (0x800 <= c < 0x10000
      /\ utf8_octets c = [0xE0 + c / 4096; 0x80 + (c / 64) mod 64; 0x80 + c mod 64])
  \/ (0x10000 <= c < 0x110000
      /\ utf8_octets c = [0xF0 + c / 262144; 0x80 + (c / 4096) mod 64;
                          0x80 + (c / 64) mod 64; 0x80 + c mod 64]).
Proof.
  unfold is_scalar, utf8_octets, utf8_cp. intros [H1 H2]%andb_true_iff.
  rewrite H1. apply negb_true_iff in H2. rewrite H2.
  unfold is_codepoint in H1. apply N.ltb_lt in H1.
  destruct (N.ltb_spec c 0x80); [by left|]. right.
  destruct (N.ltb_spec c 0x800); [by left|]. right.
  destruct (N.ltb_spec c 0x10000); [by left|]. by right.
Qed.

Lemma utf8_octets_prefix c1 c2 (r1 r2 : bytes) :
  is_scalar c1 = true -> is_scalar c2 = true ->
  utf8_octets c1 ++ r1 = utf8_octets c2 ++ r2 -> c1 = c2 /\ r1 = r2.
Proof.
  intros H1%utf8_octets_shape H2%utf8_octets_shape.
  destruct H1 as [[B1 ->]|[[B1 ->]|[[B1 ->]|[B1 ->]]]];
    destruct H2 as [[B2 ->]|[[B2 ->]|[[B2 ->]|[B2 ->]]]];
    cbn [app]; intros E; injection E; intros; subst; split; try done; lia.
Qed.

Lemma encode_utf8_inj s1 s2 b :
  encode_utf8 s1 = Ok b -> encode_utf8 s2 = Ok b -> s1 = s2.
Proof.
  intros E1 E2.
  assert (T1 : text s1) by (apply encode_utf8_text; eauto).
  assert (T2 : text s2) by (apply encode_utf8_text; eauto).
  rewrite (encode_utf8_octets _ T1) in E1. rewrite (encode_utf8_octets _ T2) in E2.
  injection E1 as E1. injection E2 as E2. subst b.
  revert s2 T2 E2. induction T1 as [|c1 s1 Hc1 _ IH]; intros s2 T2 E.
  - destruct T2 as [|c2 s2 Hc2 _]; [done|]. cbn [flat_map] in E.
    apply utf8_octets_nonempty in Hc2. by destruct (utf8_octets c2).
  - destruct T2 as [|c2 s2 Hc2 T2].
    + cbn [flat_map] in E. apply utf8_octets_nonempty in Hc1.
      by destruct (utf8_octets c1).
    + cbn [flat_map] in E. symmetry in E.
      apply utf8_octets_prefix in E as [-> E]; [|done..].
      symmetry in E. by rewrite (IH _ T2 E).
Qed.

(** [bytes.hex()] can be read back. *)
Lemma hex_digit_inj m n :
  m < 16 -> n < 16 -> HMAC.hex_digit m = HMAC.hex_digit n -> m = n.
Proof.
  intros Hm Hn E.
  assert (Hall : forallb (fun m => forallb (fun n =>
      implb (HMAC.hex_digit m =? HMAC.hex_digit n) (m =? n))
      (map N.of_nat (seq 0 16))) (map N.of_nat (seq 0 16)) = true)
    by (vm_compute; reflexivity).
  rewrite forallb_forall in Hall.
  assert (Hin : forall k, k < 16 -> In k (map N.of_nat (seq 0 16))).
  { intros k Hk. rewrite <- (N2Nat.id k). apply in_map, in_seq. lia. }
  specialize (Hall m (Hin m Hm)). rewrite forallb_forall in Hall.
  specialize (Hall n (Hin n Hn)). rewrite E, N.eqb_refl in Hall.
  by apply N.eqb_eq.
Qed.

Lemma hex_inj b1 b2 :
  Forall (fun x => x < 256) b1 -> Forall (fun x => x < 256) b2 ->
  HMAC.hex b1 = HMAC.hex b2 -> b1 = b2.
Proof.
  intros H1. revert b2. unfold HMAC.hex.
  induction H1 as [|x b1 Hx _ IH]; intros b2 H2 E.
  - destruct H2; [done|]. discriminate E.
  - destruct H2 as [|y b2 Hy H2]; [discriminate E|].
    cbn [flat_map app] in E. injection E as Eh El E.
    apply hex_digit_inj in Eh; [|apply N.mod_lt; lia..].
    apply hex_digit_inj in El; [|apply N.mod_lt; lia..].
    rewrite (IH _ H2 E). f_equal. lia.
Qed.

Lemma sha256_digest_octets m : Forall (fun x => x < 256) (SHA256.digest m).
Proof.
  unfold SHA256.digest, SHA256.output. generalize (fold_left SHA256.compress
    (map (SHA256.block_at (SHA256.pad m)) (seq 0 (length (SHA256.pad m) / 64)))
    SHA256.init).
  intros s. apply Forall_concat, Forall_forall. intros l Hl.
  apply list_elem_of_In, in_map_iff in Hl as (x & <- & _).
  unfold SHA256.be_bytes. apply Forall_forall. intros y Hy.
  apply list_elem_of_In, in_map_iff in Hy as (i & <- & _).
  apply N.mod_lt. done.
Qed.

Lemma hmac_digest_octets key msg : Forall (fun x => x < 256) (HMAC.digest key msg).
Proof. apply sha256_digest_octets. Qed.

(** C4, amended. For mappings with unique keys whose keys hold neither
    [=] nor [&] and whose value texts hold no [&], a difference in the text
    read at some key gives different canonical strings and different
    UTF-8 messages to authenticate; under one secret their signatures are
    then equal only if HMAC-SHA256 gives the two messages the same
    digest. *)
Theorem changed_text_changes_message (p q : dict) :
  dict_wf p -> dict_wf q -> delimiter_free p -> delimiter_free q ->
  (exists k, text_at p k <> text_at q k) ->
  canon_query p <> canon_query q
  /\ (forall mp mq : bytes,
      encode_utf8 (canon_query p) = Ok mp ->
      encode_utf8 (canon_query q) = Ok mq -> mp <> mq)
  /\ (forall (secret : str) (key mp mq : bytes) (sig : str),
      encode_utf8 secret = Ok key ->
      encode_utf8 (canon_query p) = Ok mp ->
      encode_utf8 (canon_query q) = Ok mq ->
      make_sig secret p = Ok sig -> make_sig secret q = Ok sig ->
      HMAC.digest key mp = HMAC.digest key mq).
Proof.
  intros Hp Hq Dp Dq [k Hk].
  assert (Hne : canon_query p <> canon_query q).
  { intros E. apply Hk. apply items_Permutation_text_at; [done..|].
    by apply canon_query_items_inj. }
  split; [done|]. split.
  - intros mp mq Ep Eq ->. apply Hne. by apply (encode_utf8_inj _ _ mq).
  - intros secret key mp mq sig Ek Ep Eq Sp Sq.
    unfold make_sig in Sp, Sq. rewrite Ep, Ek in Sp. rewrite Eq, Ek in Sq.
    cbn [bind] in Sp, Sq. injection Sp as Sp. injection Sq as Sq.
    unfold HMAC.hexdigest in Sp, Sq.
    apply hex_inj; [apply hmac_digest_octets..|]. congruence.
Qed.

Lemma changed_text_changes_message_witness :
  canon_query [(lit "order_id", VStr (lit "123456"))]
  <> canon_query [(lit "order_id", VStr (lit "123457"))].
Proof.
  assert (Hwf : forall v, dict_wf [(lit "order_id", v)]).
  { intros v. apply NoDup_cons_2; [|apply NoDup_nil_2].
    intros H. by apply elem_of_nil in H. }
  assert (Hdf : forall t, contains 0x26 t = false ->
                          delimiter_free [(lit "order_id", VStr t)]).
  { intros t Ht. apply Forall_cons_2; [|apply Forall_nil_2].
    split; [reflexivity|]. split; [reflexivity|exact Ht]. }
  destruct (changed_text_changes_message
              [(lit "order_id", VStr (lit "123456"))]
              [(lit "order_id", VStr (lit "123457"))]
              (Hwf _) (Hwf _) (Hdf (lit "123456") eq_refl) (Hdf (lit "123457") eq_refl))
    as [H _]; [|exact H].
  exists (lit "order_id"). vm_compute. intros H. discriminate H.
Defined.

Lemma canon_query_order_independent_witness :
  canon_query [(lit "b", VInt 2); (lit "a", VBool true)]
  = canon_query [(lit "a", VBool true); (lit "b", VInt 2)].
Proof.
  apply (proj1 canon_query_order_independent).
  - repeat (apply NoDup_cons_2 || apply NoDup_nil_2);
      rewrite ?elem_of_cons, ?elem_of_nil; intros H;
      repeat (destruct H as [H|H]); done.
  - repeat (apply NoDup_cons_2 || apply NoDup_nil_2);
      rewrite ?elem_of_cons, ?elem_of_nil; intros H;
      repeat (destruct H as [H|H]); done.
  - apply Permutation_same_content.
    + repeat (apply NoDup_cons_2 || apply NoDup_nil_2);
        rewrite ?elem_of_cons, ?elem_of_nil; intros H;
        repeat (destruct H as [H|H]); done.
    + apply Permutation_swap.
Defined.

Lemma canon_query_spec_witness :
  length (canon_query [(lit "b", VInt 2); (lit "a", VBool true)]) = 10%nat.
Proof.
  rewrite (proj1 (proj2 (canon_query_spec [(lit "b", VInt 2); (lit "a", VBool true)])));
    [reflexivity|done].
Defined.

(** * Further properties of the code *)

(** ** The canonical string *)

Lemma canon_query_length p :
  p <> [] ->
  length (canon_query p)
  = (sum_list_with (fun kv => length (fst kv) + 1 + length (str_of (snd kv))) p
     + (length p - 1))%nat.
Proof.
  intros Hp. unfold canon_query.
  assert (Hlen : length (sorted (items p)) = length p).
  { rewrite (Permutation_length (sorted_Permutation _)).
    unfold items. by rewrite length_map. }
  rewrite join_length.
  - rewrite length_map, Hlen. f_equal; [|simpl; lia].
    rewrite (sum_list_with_map _ pair_text), (sorted_Permutation (items p)).
    unfold items. rewrite (sum_list_with_map _ _ p).
    apply sum_list_with_ext. intros [k v].
    unfold pair_text. cbn [fst snd]. rewrite length_app. simpl. lia.
  - intros E. apply (f_equal length) in E. rewrite length_map, Hlen in E.
    destruct p; done.
Qed.

(** X1. The canonical string is empty for the empty mapping and for no
    other: every entry contributes at least its [=]. *)
Theorem canon_query_empty_iff (p : dict) : canon_query p = [] <-> p = [].
Proof.
  split; [|by intros ->].
  intros E. destruct p as [|kv p]; [done|].
  apply (f_equal length) in E. rewrite canon_query_length in E by done.
  simpl in E. lia.
Qed.

#[local] Instance key_le_trans : Transitive key_le.
Proof.
  intros a b c. unfold key_le, key_leb. intros Hab Hbc.
  assert (H : cmp_le str_compare a c).
  { apply (cmp_le_trans _ str_compare_laws a b c); unfold cmp_le.
    - by destruct (str_compare a b).
    - by destruct (str_compare b c). }
  unfold cmp_le in H. by destruct (str_compare a c).
Qed.

#[local] Instance key_le_total : Total key_le.
Proof.
  intros a b. unfold key_le, key_leb.
  destruct (cmp_le_total _ str_compare_laws a b) as [H|H]; unfold cmp_le in H.
  - left. by destruct (str_compare a b).
  - right. by destruct (str_compare b a).
Qed.

#[local] Instance key_le_antisym : AntiSymm (=) key_le.
Proof.
  intros a b. unfold key_le, key_leb. intros Hab Hba.
  apply (cmp_le_antisym _ str_compare_laws); unfold cmp_le.
  - by destruct (str_compare a b).
  - by destruct (str_compare b a).
Qed.

Lemma tuple_le_key_le s t : tuple_le s t -> key_le (fst s) (fst t).
Proof.
  unfold tuple_le, tuple_leb, tuple_compare, key_le, key_leb.
  by destruct (str_compare (fst s) (fst t)).
Qed.

Lemma sorted_items_keys p : map fst (sorted (items p)) = sorted_keys p.
Proof.
  apply (StronglySorted_unique key_le).
  - change (map fst (sorted (items p))) with (fst <$> sorted (items p)).
    eapply StronglySorted_fmap; [|apply sorted_StronglySorted].
    intros x y. apply tuple_le_key_le.
  - apply StronglySorted_merge_sort; apply _.
  - unfold sorted_keys. rewrite merge_sort_Permutation.
    rewrite (sorted_Permutation (items p)). unfold items, keys.
    rewrite map_map. done.
Qed.

(** X2. For a dictionary (unique keys) the canonical string, which the
    code forms by sorting the pairs (key, text), is what sorting the keys
    alone and reading each value by its key gives: values never decide
    the order. *)
Theorem canon_query_by_keys (p : dict) :
  dict_wf p -> canon_query p = canon_by_keys p.
Proof.
  intros Hwf. unfold canon_query, canon_by_keys. f_equal.
  rewrite <- sorted_items_keys, map_map. apply map_ext_in.
  intros [k t] Hin. unfold pair_text. cbn [fst snd]. do 2 f_equal.
  apply list_elem_of_In in Hin. rewrite (sorted_Permutation (items p)) in Hin.
  apply text_at_items in Hin; [|done]. unfold text_at in Hin.
  destruct (dict_get p k); [|done]. by injection Hin as <-.
Qed.

Lemma canon_query_by_keys_witness :
  canon_query [(lit "b", VInt 2); (lit "a", VBool true)]
  = canon_by_keys [(lit "b", VInt 2); (lit "a", VBool true)].
Proof.
  apply canon_query_by_keys.
  repeat (apply NoDup_cons_2 || apply NoDup_nil_2);
    rewrite ?elem_of_cons, ?elem_of_nil; intros H;
    repeat (destruct H as [H|H]); done.
Defined.

(** ** The signature *)

(** X3. The signature depends on the mapping only through its pairs
    (key, text of the value), in any order: neither the insertion order
    nor the type of a value (the number 1 or the text "1") changes it. *)
Theorem make_sig_items (secret : str) (p q : dict) :
  items p ≡ₚ items q -> make_sig secret p = make_sig secret q.
Proof.
  intros H. unfold make_sig, canon_query. by rewrite (sorted_perm_eq _ _ H).
Qed.

Lemma make_sig_items_witness :
  make_sig (lit "k") [(lit "a", VInt 1); (lit "b", VStr (lit "x"))]
  = make_sig (lit "k") [(lit "b", VStr (lit "x")); (lit "a", VStr (lit "1"))].
Proof. apply make_sig_items. apply Permutation_swap. Defined.

Lemma text_app_inv a b : text (a ++ b) -> text a /\ text b.
Proof. unfold text. apply Forall_app. Qed.

Lemma text_join_inv sep l : text (join sep l) -> Forall text l.
Proof.
  induction l as [|x [|y l] IH]; intros H.
  - constructor.
  - by repeat constructor.
  - change (join sep (x :: y :: l)) with (x ++ sep ++ join sep (y :: l)) in H.
    apply text_app_inv in H as [Hx H]. apply text_app_inv in H as [_ H].
    constructor; auto.
Qed.

Lemma text_canon_query_inv p : text (canon_query p) -> dict_text p.
Proof.
  unfold canon_query. intros H%text_join_inv.
  unfold dict_text. apply Forall_forall. intros [k v] Hin.
  assert (Hit : (k, str_of v) ∈ sorted (items p)).
  { rewrite (sorted_Permutation (items p)). unfold items.
    apply list_elem_of_In, in_map_iff. exists (k, v).
    split; [done|by apply list_elem_of_In]. }
  rewrite Forall_forall in H.
  specialize (H (pair_text (k, str_of v))).
  unfold pair_text in H. cbn [fst snd] in *.
  destruct (text_app_inv _ _ (H ltac:(apply list_elem_of_In, in_map_iff;
    exists (k, str_of v); split; [done|by apply list_elem_of_In]))) as [Hk Hv].
  by apply text_app_inv in Hv as [_ Hv].
Qed.

Lemma encode_utf8_Raise s : ~ text s -> encode_utf8 s = Raise UnicodeEncodeError.
Proof.
  intros H. destruct (encode_utf8 s) as [b|[]] eqn:E; [|done].
  destruct H. apply encode_utf8_text. eauto.
Qed.

(** X4. [make_sig] returns a value exactly when the secret, every key and
    the text of every value are well-formed text; otherwise it raises
    UnicodeEncodeError (from one of its two [encode] calls). *)
Theorem make_sig_outcome (secret : str) (p : dict) :
  (text secret /\ dict_text p ->
   exists sig, make_sig secret p = Ok sig /\ length sig = 64%nat)
  /\ (~ (text secret /\ dict_text p) ->
      make_sig secret p = Raise UnicodeEncodeError).
Proof.
  split.
  - intros [Hs Hp].
    apply encode_utf8_text in Hs as [key Hkey].
    apply text_canon_query, encode_utf8_text in Hp as [base Hbase].
    unfold make_sig. rewrite Hbase, Hkey. cbn [bind]. eexists. split; [done|].
    unfold HMAC.hexdigest. by rewrite hex_length, hmac_digest_length.
  - intros Hn. unfold make_sig.
    destruct (encode_utf8 (canon_query p)) as [base|[]] eqn:Eb; [|done].
    destruct (encode_utf8 secret) as [key|[]] eqn:Ek; [|done].
    destruct Hn. split.
    + apply encode_utf8_text. eauto.
    + apply text_canon_query_inv, encode_utf8_text. eauto.
Qed.

Lemma make_sig_outcome_witness :
  (exists sig, make_sig (lit "k") [(lit "a", VStr (lit "1"))] = Ok sig
               /\ length sig = 64%nat)
  /\ make_sig (lit "k") [(lit "a", VStr [0xD800])] = Raise UnicodeEncodeError.
Proof.
  split.
  - apply (proj1 (make_sig_outcome (lit "k") [(lit "a", VStr (lit "1"))])).
    split; [apply text_lit_ascii|]. repeat constructor; apply text_lit_ascii.
  - apply (proj2 (make_sig_outcome (lit "k") [(lit "a", VStr [0xD800])])).
    intros [_ H]. apply Forall_cons in H as [[_ H] _]. cbn [snd str_of] in H.
    apply Forall_cons in H as [H _]. vm_compute in H. discriminate H.
Defined.

Lemma encode_utf8_app s t a b :
  encode_utf8 s = Ok a -> encode_utf8 t = Ok b -> encode_utf8 (s ++ t) = Ok (a ++ b).
Proof.
  intros Ea Eb.
  assert (Ts : text s) by (apply encode_utf8_text; eauto).
  assert (Tt : text t) by (apply encode_utf8_text; eauto).
  rewrite (encode_utf8_octets _ Ts) in Ea. rewrite (encode_utf8_octets _ Tt) in Eb.
  injection Ea as <-. injection Eb as <-.
  rewrite encode_utf8_octets by by apply text_app.
  by rewrite flat_map_app.
Qed.

Lemma encode_utf8_zeros n : encode_utf8 (repeat 0 n) = Ok (repeat 0 n).
Proof.
  rewrite encode_utf8_octets.
  - f_equal. induction n as [|n IH]; [done|]. simpl. by rewrite IH.
  - apply Forall_forall. intros c Hc%list_elem_of_In%repeat_spec. by subst.
Qed.

Lemma key_block_zeros (key : bytes) n :
  (length key + n <= 64)%nat ->
  HMAC.key_block (key ++ repeat 0 n) = HMAC.key_block key.
Proof.
  intros H. unfold HMAC.key_block, SHA256.block_size.
  rewrite length_app, repeat_length.
  destruct (Nat.ltb_spec 64 (length key + n)); [lia|].
  destruct (Nat.ltb_spec 64 (length key)); [lia|].
  rewrite length_app, repeat_length, <- app_assoc, <- repeat_app.
  do 2 f_equal. lia.
Qed.

(** X5. U+0000 characters at the end of a secret do not count, as long
    as the key stays within one 64-octet block: HMAC pads the key with
    zero octets itself, so the two secrets sign every mapping alike. *)
Theorem make_sig_zero_padded (secret : str) (key : bytes) (n : nat) (p : dict) :
  encode_utf8 secret = Ok key -> (length key + n <= 64)%nat ->
  make_sig (secret ++ repeat 0 n) p = make_sig secret p.
Proof.
  intros Ek Hn. unfold make_sig.
  destruct (encode_utf8 (canon_query p)) as [base|e]; [|done]. cbn [bind].
  rewrite (encode_utf8_app _ _ _ _ Ek (encode_utf8_zeros n)), Ek. cbn [bind].
  unfold HMAC.hexdigest, HMAC.digest. by rewrite key_block_zeros.
Qed.

Lemma make_sig_zero_padded_witness :
  make_sig (lit "s3cret" ++ repeat 0 3) [(lit "a", VStr (lit "1"))]
  = make_sig (lit "s3cret") [(lit "a", VStr (lit "1"))].
Proof.
  apply (make_sig_zero_padded (lit "s3cret") (lit "s3cret")).
  - vm_compute. reflexivity.
  - vm_compute. lia.
Defined.

(** ** What the query encoding leaves alone *)

Lemma escape_unreserved s :
  Forall (fun c => is_unreserved c = true) s -> escape s = s.
Proof.
  unfold escape. induction 1 as [|c s Hc _ IH]; [done|].
  cbn [flat_map]. rewrite IH. unfold escape_cp. fold (is_unreserved c).
  rewrite Hc. destruct (N.eqb_spec c 0x20) as [->|]; [|done].
  vm_compute in Hc. discriminate Hc.
Qed.

Lemma lit_String a s : lit (String a s) = N_of_ascii a :: lit s.
Proof. reflexivity. Qed.

Lemma digits_unreserved (d : Decimal.uint) :
  Forall (fun c => is_unreserved c = true) (lit (NilEmpty.string_of_uint d)).
Proof.
  induction d; cbn [NilEmpty.string_of_uint]; rewrite ?lit_String;
    try (apply Forall_cons_2; [vm_compute; reflexivity|assumption]).
  apply Forall_nil_2.
Qed.

Lemma str_of_N_unreserved n : Forall (fun c => is_unreserved c = true) (str_of_N n).
Proof.
  unfold str_of_N, NilZero.string_of_uint.
  destruct (N.to_uint n) eqn:E; try (rewrite <- E; apply digits_unreserved).
  apply Forall_cons_2; [vm_compute; reflexivity|apply Forall_nil_2].
Qed.

Lemma zfill_unreserved w s :
  Forall (fun c => is_unreserved c = true) s ->
  Forall (fun c => is_unreserved c = true) (zfill w s).
Proof.
  intros H. unfold zfill. apply Forall_app_2; [|done].
  apply Forall_forall. intros c Hc%list_elem_of_In%repeat_spec. by subst.
Qed.

Lemma isoformat_unreserved now :
  Forall (fun c => is_unreserved c = true) (isoformat_seconds now ++ lit "Z").
Proof.
  assert (Hl : forall s : string,
    forallb is_unreserved (lit s) = true ->
    Forall (fun c => is_unreserved c = true) (lit s)).
  { intros s H. rewrite forallb_forall in H. apply Forall_forall.
    intros c Hc. by apply H, list_elem_of_In. }
  apply Forall_app_2; [|by apply Hl].
  unfold isoformat_seconds.
  repeat (apply Forall_app_2;
          [solve [apply zfill_unreserved, str_of_N_unreserved | by apply Hl]|]).
  apply zfill_unreserved, str_of_N_unreserved.
Qed.

(** X6. The timestamp the script stores (ISO date and time to the second,
    then Z) is made of digits, hyphens, colons, T and Z only, all of which
    the query encoding keeps: it appears in the URL as it is, whatever the
    clock says. *)
Theorem timestamp_verbatim (now : datetime) (domain code : str) :
  escape (isoformat_seconds now ++ lit "Z") = isoformat_seconds now ++ lit "Z"
  /\ build_url domain code [(lit "ts", VStr (isoformat_seconds now ++ lit "Z"))]
     = Ok (base_url domain code ++ lit "?ts=" ++ isoformat_seconds now ++ lit "Z").
Proof.
  pose proof (escape_unreserved _ (isoformat_unreserved now)) as E.
  split; [exact E|].
  rewrite build_url_text.
  - unfold query_string, query_pair. cbn [map join fst snd str_of].
    rewrite E. done.
  - apply Forall_cons_2; [|apply Forall_nil_2].
    split; [apply text_lit_ascii|apply text_isoformat].
Qed.

Lemma hex_unreserved b : Forall (fun c => is_unreserved c = true) (HMAC.hex b).
Proof.
  eapply Forall_impl; [apply hex_lower|]. intros c. cbn beta.
  unfold is_lower_hex, is_unreserved, is_alnum.
  repeat match goal with
         | |- context [?a <=? ?b] => destruct (N.leb_spec a b)
         end; simpl; try done; lia.
Qed.

(** A signing run, in full. *)
Lemma script_signed w now :
  widgets_text w -> use_sig w = true -> secret w <> [] ->
  exists (key base : bytes) (url : str),
    encode_utf8 (secret w) = Ok key
    /\ encode_utf8 (canon_query (assemble_params w now)) = Ok base
    /\ make_sig (secret w) (assemble_params w now) = Ok (HMAC.hex (HMAC.digest key base))
    /\ build_url (domain_text (domain w)) (survey_code w)
         (assemble_params w now ++ [(lit "sig", VStr (HMAC.hex (HMAC.digest key base)))])
       = Ok url
    /\ script w now
       = Ok (Page (assemble_params w now
                   ++ [(lit "sig", VStr (HMAC.hex (HMAC.digest key base)))])
               url
               [Subheader (lit "URL final do survey");
                Code url;
                Markdown (lit "[Abrir link agora](" ++ url ++ lit ")")]).
Proof.
  intros Hw Hu Hs.
  destruct (script_run w now Hw) as (ps & url & Eps & Hps & Eurl & E).
  pose proof (assemble_params_no_sig w now) as Hno.
  pose proof (assemble_params_text w now Hw) as Hp.
  destruct (make_sig_spec _ _ (proj1 (proj2 (proj2 Hw))) Hp) as (key & base & Ek & Eb & Es & _).
  destruct (sign_params_signed w _ Hu Hs (proj1 (proj2 (proj2 Hw))) Hp Hno) as (sig & Hsig & E').
  rewrite Es in Hsig. injection Hsig as <-.
  rewrite E' in Eps. injection Eps as <-.
  exists key, base, url. done.
Qed.

Lemma join_snoc sep (l : list str) x :
  join sep (l ++ [x])
  = match l with
    | [] => x
    | _ :: _ => join sep l ++ sep ++ x
    end.
Proof.
  induction l as [|y [|z l] IH]; [done|done|].
  change (join sep ((y :: z :: l) ++ [x]))
    with (y ++ sep ++ join sep ((z :: l) ++ [x])).
  rewrite IH.
  change (join sep (y :: z :: l)) with (y ++ sep ++ join sep (z :: l)).
  by rewrite <- !app_assoc.
Qed.

(** X7. When the script signs, the signature is the last parameter of the
    URL and stands there as it is, 64 lowercase hexadecimal digits after
    [sig=]; with no other parameter the URL is the base, [?sig=] and the
    signature of the empty string. *)
Theorem signed_url_shape (w : widgets) (now : datetime) :
  widgets_text w -> use_sig w = true -> secret w <> [] ->
  exists (pg : page) (sig : str),
    script w now = Ok pg
    /\ make_sig (secret w) (assemble_params w now) = Ok sig
    /\ length sig = 64%nat
    /\ Forall (fun c => is_lower_hex c = true) sig
    /\ url_final pg
       = base_url (domain_text (domain w)) (survey_code w) ++ lit "?"
         ++ match assemble_params w now with
            | [] => []
            | _ :: _ => query_string (assemble_params w now) ++ lit "&"
            end
         ++ lit "sig=" ++ sig.
Proof.
  intros Hw Hu Hs.
  destruct (script_signed w now Hw Hu Hs) as (key & base & url & Ek & Eb & Es & Eurl & E).
  eexists. exists (HMAC.hex (HMAC.digest key base)).
  split; [exact E|]. split; [exact Es|].
  split; [by rewrite hex_length, hmac_digest_length|].
  split; [apply hex_lower|]. cbn [url_final].
  set (sig := HMAC.hex (HMAC.digest key base)) in *.
  set (A := assemble_params w now) in *.
  assert (Hq : query_string (A ++ [(lit "sig", VStr sig)])
               = match A with
                 | [] => []
                 | _ :: _ => query_string A ++ lit "&"
                 end ++ lit "sig=" ++ sig).
  { assert (Hp : query_pair (lit "sig", VStr sig) = lit "sig=" ++ sig).
    { unfold query_pair. cbn [fst snd str_of].
      by rewrite (escape_unreserved sig) by apply hex_unreserved. }
    unfold query_string. rewrite map_app. cbn [map]. rewrite join_snoc, Hp.
    destruct A; cbn [map]; [done|]. by rewrite <- !app_assoc. }
  rewrite build_url_text in Eurl.
  - assert (Hne : exists kv l, A ++ [(lit "sig", VStr sig)] = kv :: l).
    { destruct A; simpl; eauto. }
    destruct Hne as (kv & l & El). rewrite El in Eurl. injection Eurl as <-.
    by rewrite <- El, Hq.
  - apply dict_text_snoc; [by apply assemble_params_text|apply text_lit_ascii|].
    apply text_hex.
Qed.

Lemma signed_url_shape_witness :
  exists (pg : page) (sig : str),
    script (Widgets PtSurveyMonkey (lit "9B9GS555") [] [] false true (lit "s3cret"))
           (Datetime 2024 3 7 9 5 1) = Ok pg
    /\ url_final pg = lit "https://pt.surveymonkey.com/r/9B9GS555?sig=" ++ sig.
Proof.
  destruct (signed_url_shape
              (Widgets PtSurveyMonkey (lit "9B9GS555") [] [] false true (lit "s3cret"))
              (Datetime 2024 3 7 9 5 1))
    as (pg & sig & E & _ & _ & _ & Hurl).
  - repeat split; apply text_lit_ascii || constructor.
  - reflexivity.
  - intros H. discriminate H.
  - exists pg, sig. split; [exact E|]. rewrite Hurl. reflexivity.
Defined.

(** X8. The final mapping of a signing run is not what was signed: its
    canonical string is the signed one and the sig entry, 68 characters
    longer ([sig=] and 64 digits), 69 with the separator when other
    parameters are present. Signing the received parameters without
    dropping sig first gives another message. *)
Theorem signed_string_is_shorter (w : widgets) (now : datetime) :
  widgets_text w -> use_sig w = true -> secret w <> [] ->
  exists pg : page,
    script w now = Ok pg
    /\ length (canon_query (params pg))
       = (length (canon_query (assemble_params w now))
          + match assemble_params w now with
            | [] => 68
            | _ :: _ => 69
            end)%nat
    /\ canon_query (params pg) <> canon_query (assemble_params w now).
Proof.
  intros Hw Hu Hs.
  destruct (script_signed w now Hw Hu Hs) as (key & base & url & Ek & Eb & Es & Eurl & E).
  eexists. split; [exact E|]. cbn [params].
  set (sig := HMAC.hex (HMAC.digest key base)) in *.
  set (A := assemble_params w now) in *.
  assert (Hsig : length sig = 64%nat) by (subst sig; by rewrite hex_length, hmac_digest_length).
  assert (Hlen : length (canon_query (A ++ [(lit "sig", VStr sig)]))
                 = (length (canon_query A)
                    + match A with [] => 68 | _ :: _ => 69 end)%nat).
  { rewrite canon_query_length by (by destruct A).
    rewrite sum_list_with_app, length_app. cbn [sum_list_with fst snd str_of length].
    change (length (lit "sig")) with 3%nat. rewrite Hsig.
    destruct A as [|kv A']; [simpl; lia|].
    rewrite (canon_query_length (kv :: A')) by done. simpl. lia. }
  split; [exact Hlen|].
  intros Heq. rewrite Heq in Hlen. destruct A; lia.
Qed.

Lemma signed_string_is_shorter_witness :
  exists pg : page,
    script (Widgets PtSurveyMonkey (lit "9B9GS555") (lit "045") [] false true (lit "s3cret"))
           (Datetime 2024 3 7 9 5 1) = Ok pg
    /\ length (canon_query (params pg)) = (length (lit "store_id=045") + 69)%nat.
Proof.
  destruct (signed_string_is_shorter
              (Widgets PtSurveyMonkey (lit "9B9GS555") (lit "045") [] false true (lit "s3cret"))
              (Datetime 2024 3 7 9 5 1))
    as (pg & E & Hlen & _).
  - repeat split; apply text_lit_ascii || constructor.
  - reflexivity.
  - intros H. discriminate H.
  - exists pg. split; [exact E|]. rewrite Hlen. reflexivity.
Defined.

(** ** The query can be read back *)

Lemma forallb_below (n : nat) (P : N -> bool) :
  forallb P (map N.of_nat (seq 0 n)) = true ->
  forall c, c < N.of_nat n -> P c = true.
Proof.
  intros H c Hc. rewrite forallb_forall in H. apply H.
  rewrite <- (N2Nat.id c). apply in_map, in_seq. lia.
Qed.

Lemma escape_octet_high b : 0x80 <= b -> escape_octet b = Urllib.percent b.
Proof.
  intros Hb. unfold escape_octet, is_unreserved, is_alnum, kept.
  rewrite !(contains_above _ 0x80) by (done || (vm_compute; repeat constructor)).
  destruct (N.eqb_spec b 0x20); [lia|].
  repeat match goal with
         | |- context [?a <=? ?b] => destruct (N.leb_spec a b)
         end; simpl; try done; lia.
Qed.

Lemma escape_cp_octets c :
  is_scalar c = true -> escape_cp c = flat_map escape_octet (utf8_octets c).
Proof.
  intros Hc. destruct (N.lt_ge_cases c 0x80) as [Hlt|Hge].
  - destruct (utf8_octets_shape c Hc) as [[_ ->]|[[? _]|[[? _]|[? _]]]]; try lia.
    cbn [flat_map]. rewrite app_nil_r. unfold escape_cp, escape_octet.
    fold (is_unreserved c). destruct (c =? 0x20); [done|].
    destruct (is_unreserved c); [done|].
    destruct (utf8_octets_shape c Hc) as [[_ ->]|[[? _]|[[? _]|[? _]]]]; try lia.
    cbn [flat_map]. by rewrite app_nil_r.
  - rewrite escape_cp_high by done.
    eapply flat_map_ext_Forall; [apply utf8_octets_high; done|].
    intros b Hb. by rewrite escape_octet_high.
Qed.

Lemma escape_octets s :
  text s -> escape s = flat_map escape_octet (flat_map utf8_octets s).
Proof.
  intros H. rewrite flat_map_flat_map. unfold escape.
  eapply flat_map_ext_Forall; [exact H|]. intros c Hc. by apply escape_cp_octets.
Qed.

Lemma utf8_octets_bound c :
  is_scalar c = true -> Forall (fun b => b < 256) (utf8_octets c).
Proof.
  intros Hc.
  destruct (utf8_octets_shape c Hc) as [[B ->]|[[B ->]|[[B ->]|[B ->]]]];
    repeat (apply Forall_cons_2; [cbn beta; lia|]); apply Forall_nil_2.
Qed.

Lemma text_octets_bound s :
  text s -> Forall (fun b => b < 256) (flat_map utf8_octets s).
Proof.
  induction 1 as [|c s Hc _ IH]; [constructor|]. cbn [flat_map].
  apply Forall_app_2; [by apply utf8_octets_bound|done].
Qed.

Lemma is_prefix_app (a l : str) : is_prefix a (a ++ l) = true.
Proof. induction a as [|x a IH]; [done|]. simpl. by rewrite N.eqb_refl, IH. Qed.

Lemma escape_octet_prefix b1 b2 (r1 r2 : str) :
  b1 < 256 -> b2 < 256 ->
  escape_octet b1 ++ r1 = escape_octet b2 ++ r2 -> b1 = b2 /\ r1 = r2.
Proof.
  intros H1 H2 E.
  assert (Hall : forallb (fun x => forallb (fun y =>
      implb (is_prefix (escape_octet x) (escape_octet y)) (x =? y))
      (map N.of_nat (seq 0 256))) (map N.of_nat (seq 0 256)) = true)
    by (vm_compute; reflexivity).
  assert (Hpre : forall x y, x < 256 -> y < 256 ->
                 is_prefix (escape_octet x) (escape_octet y) = true -> x = y).
  { intros x y Hx Hy Hp.
    pose proof (forallb_below 256 _ Hall x Hx) as Hrow. cbn beta in Hrow.
    pose proof (forallb_below 256 _ Hrow y Hy) as Hxy. cbn beta in Hxy.
    rewrite Hp in Hxy. by apply N.eqb_eq. }
  assert (b1 = b2) as ->.
  { apply app_eq_app in E as [l [[E _]|[E _]]].
    - symmetry. apply Hpre; [done..|]. rewrite E. apply is_prefix_app.
    - apply Hpre; [done..|]. rewrite E. apply is_prefix_app. }
  split; [done|]. by apply app_inv_head in E.
Qed.

Lemma escape_octet_nonempty b : escape_octet b <> [].
Proof.
  unfold escape_octet. destruct (b =? 0x20); [done|].
  destruct (is_unreserved b); done.
Qed.

Lemma escape_octets_inj (l1 l2 : bytes) :
  Forall (fun b => b < 256) l1 -> Forall (fun b => b < 256) l2 ->
  flat_map escape_octet l1 = flat_map escape_octet l2 -> l1 = l2.
Proof.
  intros H1. revert l2. induction H1 as [|b1 l1 Hb1 _ IH]; intros l2 H2 E.
  - destruct H2 as [|b2 l2 _ _]; [done|]. cbn [flat_map] in E.
    pose proof (escape_octet_nonempty b2). by destruct (escape_octet b2).
  - destruct H2 as [|b2 l2 Hb2 H2].
    { cbn [flat_map] in E. pose proof (escape_octet_nonempty b1).
      by destruct (escape_octet b1). }
    cbn [flat_map] in E. apply escape_octet_prefix in E as [-> E]; [|done..].
    by rewrite (IH _ H2 E).
Qed.

Lemma escape_inj s t : text s -> text t -> escape s = escape t -> s = t.
Proof.
  intros Hs Ht E. rewrite !escape_octets in E by done.
  apply escape_octets_inj in E; [|by apply text_octets_bound..].
  apply (encode_utf8_inj s t (flat_map utf8_octets s)).
  - by apply encode_utf8_octets.
  - rewrite E. by apply encode_utf8_octets.
Qed.

Lemma contains_flat_map {A} c (f : A -> str) l :
  Forall (fun a => contains c (f a) = false) l -> contains c (flat_map f l) = false.
Proof.
  induction 1 as [|a l Ha _ IH]; [done|]. cbn [flat_map].
  by rewrite contains_app, Ha, IH.
Qed.

Lemma escape_no_delimiter s :
  text s -> contains 0x26 (escape s) = false /\ contains 0x3D (escape s) = false.
Proof.
  intros Hs. rewrite escape_octets by done.
  assert (Hall : forallb (fun b => negb (contains 0x26 (escape_octet b))
                                   && negb (contains 0x3D (escape_octet b)))
                   (map N.of_nat (seq 0 256)) = true) by (vm_compute; reflexivity).
  split; apply contains_flat_map;
    (eapply Forall_impl; [exact (text_octets_bound _ Hs)|]);
    intros b Hb; cbn beta in *;
    pose proof (forallb_below 256 _ Hall b Hb) as H; cbn beta in H;
    apply andb_true_iff in H as [H1 H2];
    [by apply negb_true_iff in H1|by apply negb_true_iff in H2].
Qed.

Lemma query_pair_inj kv kv' :
  text (fst kv) -> text (str_of (snd kv)) ->
  text (fst kv') -> text (str_of (snd kv')) ->
  query_pair kv = query_pair kv' ->
  fst kv = fst kv' /\ str_of (snd kv) = str_of (snd kv').
Proof.
  intros Hk Hv Hk' Hv' E. unfold query_pair in E.
  change (lit "=") with [0x3D] in E.
  apply (split_at_first 0x3D) in E as [E1 E2];
    [|by apply escape_no_delimiter..].
  split; by apply escape_inj.
Qed.

Lemma query_string_inj p q :
  dict_text p -> dict_text q -> query_string p = query_string q -> items p = items q.
Proof.
  intros Hp Hq E. unfold query_string in E. change (lit "&") with [0x26] in E.
  assert (Hseg : forall d, dict_text d ->
    Forall (fun x => x <> [] /\ contains 0x26 x = false) (map query_pair d)).
  { intros d Hd. apply Forall_forall. intros x Hx.
    apply list_elem_of_In, in_map_iff in Hx as (kv & <- & Hin).
    unfold dict_text in Hd. rewrite Forall_forall in Hd.
    destruct (Hd kv) as [Hk Hv]; [by apply list_elem_of_In|].
    unfold query_pair. split.
    - intros E'. apply (f_equal length) in E'. rewrite !length_app in E'.
      change (length (lit "=")) with 1%nat in E'. cbn [length] in E'. lia.
    - rewrite !contains_app.
      rewrite (proj1 (escape_no_delimiter _ Hk)), (proj1 (escape_no_delimiter _ Hv)).
      reflexivity. }
  apply join_inj in E; [|by apply Hseg..]. clear Hseg.
  revert q Hq E. induction Hp as [|kv p [Hk Hv] _ IH]; intros [|kv' q] Hq E; try done.
  apply Forall_cons in Hq as [[Hk' Hv'] Hq]. cbn [map] in E. injection E as E1 E.
  apply query_pair_inj in E1 as [E1 E2]; [|done..].
  unfold items. cbn [map]. f_equal; [by rewrite E1, E2|]. by apply IH.
Qed.

Lemma Ok_inj {A} (x y : A) : Ok x = Ok y -> x = y.
Proof. by intros [=]. Qed.

(** X9. The query of the URL loses nothing: for one domain and survey
    code, two mappings of well-formed text give the same URL only when
    they hold the same pairs (key, text of the value) in the same order.
    Delimiters inside keys and values are escaped, so the query splits in
    one way only. *)
Theorem build_url_injective (domain code : str) (p q : dict) :
  dict_text p -> dict_text q ->
  build_url domain code p = build_url domain code q -> items p = items q.
Proof.
  intros Hp Hq E. rewrite !build_url_text in E by done. apply Ok_inj in E.
  apply query_string_inj; [done..|].
  destruct p as [|kv p], q as [|kv' q]; [done| | |].
  - rewrite <- (app_nil_r (base_url domain code)) in E at 1.
    apply app_inv_head in E. discriminate E.
  - rewrite <- (app_nil_r (base_url domain code)) in E at 2.
    apply app_inv_head in E. discriminate E.
  - apply app_inv_head in E. by apply (app_inv_head (lit "?")) in E.
Qed.

Lemma build_url_injective_witness :
  build_url (lit "a.b") (lit "c") [(lit "k", VStr (lit "1&x=2"))]
  <> build_url (lit "a.b") (lit "c") [(lit "k", VStr (lit "1")); (lit "x", VStr (lit "2"))].
Proof.
  intros E. apply build_url_injective in E.
  - discriminate E.
  - repeat (apply Forall_cons_2; [split; apply text_lit_ascii|]). apply Forall_nil_2.
  - repeat (apply Forall_cons_2; [split; apply text_lit_ascii|]). apply Forall_nil_2.
Defined.

(** ** Errors of [build_url] *)

Lemma quote_Ok s safe r : Urllib.quote s safe = Ok r -> text s.
Proof.
  unfold Urllib.quote. destruct s as [|c s]; [constructor|].
  intros (bs & E & _)%bind_Ok. apply encode_utf8_text. eauto.
Qed.

Lemma quote_plus_Ok s safe r : Urllib.quote_plus s safe = Ok r -> text s.
Proof.
  unfold Urllib.quote_plus. destruct (contains 0x20 s).
  - intros (q & E & _)%bind_Ok. by apply quote_Ok in E.
  - apply quote_Ok.
Qed.

Lemma urlencode_Ok p safe r : Urllib.urlencode p safe = Ok r -> dict_text p.
Proof.
  unfold Urllib.urlencode. intros (l & E & _)%bind_Ok.
  assert (H : Forall (fun kv => exists b, Urllib.urlencode_pair safe kv = Ok b) p).
  { apply mapM_Ok_Forall. eauto. }
  eapply Forall_impl; [exact H|]. intros kv [b Hb]. cbn beta.
  unfold Urllib.urlencode_pair in Hb.
  apply bind_Ok in Hb as (k & Ek & Hb). apply bind_Ok in Hb as (v & Ev & _).
  split; eapply quote_plus_Ok; eauto.
Qed.

Lemma build_url_Raise domain code p :
  ~ dict_text p -> build_url domain code p = Raise UnicodeEncodeError.
Proof.
  intros H. unfold build_url.
  destruct (Urllib.urlencode p (lit "-_.:")) as [qs|[]] eqn:E; [|done].
  destruct H. by apply urlencode_Ok in E.
Qed.

(** X10. [build_url] returns a URL exactly when every key and the text of
    every value is well-formed text, and raises UnicodeEncodeError
    otherwise; the domain and the survey code are copied, never encoded,
    and cannot make it fail. *)
Theorem build_url_outcome (domain code : str) (p : dict) :
  (dict_text p -> exists url, build_url domain code p = Ok url)
  /\ (~ dict_text p -> build_url domain code p = Raise UnicodeEncodeError).
Proof.
  split.
  - intros H. rewrite build_url_text by done. eauto.
  - apply build_url_Raise.
Qed.

Lemma build_url_outcome_witness :
  (exists url, build_url [0xD800] [0xDFFF] [(lit "a", VStr (lit "1"))] = Ok url)
  /\ build_url (lit "a.b") (lit "c") [([0xD800], VStr (lit "1"))]
     = Raise UnicodeEncodeError.
Proof.
  split.
  - apply (proj1 (build_url_outcome [0xD800] [0xDFFF] [(lit "a", VStr (lit "1"))])).
    apply Forall_cons_2; [split; apply text_lit_ascii|apply Forall_nil_2].
  - apply (proj2 (build_url_outcome (lit "a.b") (lit "c") [([0xD800], VStr (lit "1"))])).
    intros H. apply Forall_cons in H as [[H _] _]. cbn [fst] in H.
    apply Forall_cons in H as [H _]. vm_compute in H. discriminate H.
Defined.

(** ** What stripping leaves *)

Lemma lstrip_by_head p s c r : lstrip_by p s = c :: r -> p c = false.
Proof.
  induction s as [|x s IH]; simpl; [done|].
  destruct (p x) eqn:E; [done|]. by intros [= <- _].
Qed.

Lemma lstrip_by_keep p c r : p c = false -> lstrip_by p (c :: r) = c :: r.
Proof. intros H. simpl. by rewrite H. Qed.

Lemma rstrip_by_last p s c r : rstrip_by p s = r ++ [c] -> p c = false.
Proof.
  unfold rstrip_by. intros E. apply (f_equal (@rev N)) in E.
  rewrite rev_involutive, rev_app_distr in E. by apply lstrip_by_head in E.
Qed.

Lemma rstrip_by_prefix p s : exists ws, s = rstrip_by p s ++ ws.
Proof.
  assert (H : forall t, exists ws, t = ws ++ lstrip_by p t).
  { induction t as [|x t [ws IH]]; [by exists []|]. simpl.
    destruct (p x); [|by exists []]. exists (x :: ws). simpl. by rewrite <- IH. }
  destruct (H (rev s)) as [ws E]. exists (rev ws). unfold rstrip_by.
  rewrite <- rev_app_distr, <- E. by rewrite rev_involutive.
Qed.

Lemma rstrip_by_keep p r c : p c = false -> rstrip_by p (r ++ [c]) = r ++ [c].
Proof.
  intros H. unfold rstrip_by. rewrite rev_app_distr. cbn [rev app].
  rewrite lstrip_by_keep by done.
  change (c :: rev r) with ([c] ++ rev r). by rewrite rev_app_distr, rev_involutive.
Qed.

Lemma strip_head s c r : strip s = c :: r -> isspace c = false.
Proof.
  unfold strip. intros E.
  destruct (rstrip_by_prefix isspace (lstrip_by isspace s)) as [ws Hws].
  rewrite E in Hws. by apply lstrip_by_head in Hws.
Qed.

Lemma strip_last s c r : strip s = r ++ [c] -> isspace c = false.
Proof. unfold strip. apply rstrip_by_last. Qed.

Lemma snoc_cases {A} (l : list A) : l = [] \/ exists r c, l = r ++ [c].
Proof.
  destruct (rev l) as [|c r] eqn:E.
  - left. apply (f_equal (@rev A)) in E. by rewrite rev_involutive in E.
  - right. exists (rev r), c. apply (f_equal (@rev A)) in E.
    by rewrite rev_involutive in E.
Qed.

(** X11. What [build_url] makes of its domain and survey code: stripping
    twice is stripping once, a stripped text neither begins nor ends with
    white space, and the host part never ends with a slash. *)
Theorem normalization_invariants :
  (forall s : str, strip (strip s) = strip s)
  /\ (forall (s : str) c r, strip s = c :: r -> isspace c = false)
  /\ (forall (s : str) c r, strip s = r ++ [c] -> isspace c = false)
  /\ (forall d r : str, norm_domain d <> r ++ lit "/").
Proof.
  split; [|split; [|split]].
  - intros s. destruct (strip s) as [|c r] eqn:E; [done|].
    pose proof (strip_head _ _ _ E) as Hc.
    unfold strip at 1. rewrite lstrip_by_keep by done.
    destruct (snoc_cases (c :: r)) as [H|(r' & c' & H)]; [done|].
    rewrite H in E |- *. apply strip_last in E. by apply rstrip_by_keep.
  - apply strip_head.
  - apply strip_last.
  - intros d r E. unfold norm_domain, rstrip in E.
    change (lit "/") with [0x2F] in E. by apply rstrip_by_last in E.
Qed.

(** X12. White space is stripped before the slashes are: white space
    that stands between the host and trailing slashes stays in the URL. *)
Theorem space_before_slash_kept (d ws : str) (n : nat) (code : str) :
  d <> [] -> lstrip_by isspace d = d ->
  ws <> [] -> Forall (fun c => isspace c = true) ws -> n <> 0%nat ->
  norm_domain (d ++ ws ++ repeat 0x2F n) = d ++ ws
  /\ build_url (d ++ ws ++ repeat 0x2F n) code []
     = Ok (lit "https://" ++ (d ++ ws) ++ lit "/r/" ++ strip code).
Proof.
  intros Hd Hl Hws Hall Hn.
  assert (E : norm_domain (d ++ ws ++ repeat 0x2F n) = d ++ ws).
  { unfold norm_domain, strip. rewrite lstrip_by_app_fixed by done.
    rewrite !app_assoc.
    rewrite rstrip_by_app_fixed;
      [|by destruct n|by apply slashes_not_space].
    unfold rstrip. rewrite rstrip_by_app_r by apply slashes_rstrip.
    destruct (snoc_cases ws) as [?|(r & c & ->)]; [done|].
    rewrite app_assoc. apply rstrip_by_keep.
    apply Forall_app in Hall as [_ Hc]. apply Forall_cons in Hc as [Hc _].
    destruct (N.eqb_spec c 0x2F) as [->|Hne]; [vm_compute in Hc; discriminate Hc|].
    cbn beta. change (lit "/") with [0x2F]. cbn [existsb].
    apply N.eqb_neq in Hne. by rewrite Hne. }
  split; [exact E|].
  unfold build_url. fold (norm_domain (d ++ ws ++ repeat 0x2F n)). by rewrite E.
Qed.

Lemma space_before_slash_kept_witness :
  build_url (lit "a.b /") (lit "c") [] = Ok (lit "https://a.b /r/c").
Proof.
  destruct (space_before_slash_kept (lit "a.b") (lit " ") 1 (lit "c")) as [_ E].
  - intros H. discriminate H.
  - reflexivity.
  - intros H. discriminate H.
  - by repeat constructor.
  - lia.
  - exact E.
Defined.

(** ** Runs of the script *)

Lemma assemble_params_text_iff w now :
  dict_text (assemble_params w now) <-> text (store_id w) /\ text (order_id w).
Proof.
  split.
  - rewrite assemble_params_cases. unfold dict_text.
    intros [H1 [H2 _]%Forall_app]%Forall_app. split.
    + destruct (store_id w) as [|c s] eqn:E; [constructor|]. cbn [truthy] in H1.
      by apply Forall_cons in H1 as [[_ H1] _].
    + destruct (order_id w) as [|c s] eqn:E; [constructor|]. cbn [truthy] in H2.
      by apply Forall_cons in H2 as [[_ H2] _].
  - intros [H1 H2]. rewrite assemble_params_cases. unfold dict_text.
    repeat apply Forall_app_2.
    + destruct (truthy (store_id w)); repeat constructor; done.
    + destruct (truthy (order_id w)); repeat constructor; done.
    + destruct (add_ts w); repeat constructor. apply text_isoformat.
Qed.

Lemma make_sig_Raise secret p :
  ~ (text secret /\ dict_text p) -> make_sig secret p = Raise UnicodeEncodeError.
Proof.
  intros Hn. unfold make_sig.
  destruct (encode_utf8 (canon_query p)) as [base|[]] eqn:Eb; [|done].
  destruct (encode_utf8 secret) as [key|[]] eqn:Ek; [|done].
  destruct Hn. split.
  - apply encode_utf8_text. eauto.
  - apply text_canon_query_inv, encode_utf8_text. eauto.
Qed.

Lemma build_url_Ok_shape d code ps url :
  build_url (domain_text d) code ps = Ok url ->
  dict_text ps /\ (text url <-> text code).
Proof.
  intros E.
  assert (Hps : dict_text ps).
  { unfold build_url in E. apply bind_Ok in E as (qs & Eq & _).
    by apply urlencode_Ok in Eq. }
  split; [done|]. rewrite build_url_text in E by done.
  apply Ok_inj in E as <-. apply text_shown_url.
Qed.

Lemma show_url_Raise url (params : dict) :
  ~ text url ->
  (let* heading := st_write (Subheader (lit "URL final do survey")) in
   let* code := st_write (Code url) in
   let* link := st_write (Markdown (lit "[Abrir link agora](" ++ url ++ lit ")")) in
   Ok (Page params url [heading; code; link]))
  = Raise UnicodeEncodeError.
Proof.
  intros H. rewrite st_write_text by apply text_lit_ascii. cbn [bind].
  unfold st_write at 1. cbn [element_text]. by rewrite encode_utf8_Raise.
Qed.

(** X13. The script runs to its end exactly when the texts it encodes are
    well-formed: store_id, order_id, the secret when it signs, and the
    survey code, which goes into the URL it shows. Then it shows a URL;
    otherwise it stops with UnicodeEncodeError. A secret that is not used
    cannot make it fail. *)
Theorem script_outcome (w : widgets) (now : datetime) :
  (encodable w -> exists pg, script w now = Ok pg)
  /\ (~ encodable w -> script w now = Raise UnicodeEncodeError).
Proof.
  split.
  - intros (Hs & Ho & Hsec & Hcode).
    assert (Hp : dict_text (assemble_params w now))
      by (by apply assemble_params_text_iff).
    unfold script. destruct (decide (signing w)) as [[Hu Hne]|Hn].
    + destruct (sign_params_signed w _ Hu Hne (Hsec (conj Hu Hne)) Hp
                  (assemble_params_no_sig w now)) as (sig & Hsig & E).
      rewrite E. cbn [bind]. rewrite build_url_text.
      * cbn [bind]. rewrite show_url by (by apply text_shown_url). eauto.
      * apply dict_text_snoc; [done|apply text_lit_ascii|].
        unfold make_sig in Hsig.
        apply bind_Ok in Hsig as (base & _ & Hsig).
        apply bind_Ok in Hsig as (key & _ & [= <-]). apply text_hex.
    + rewrite (sign_params_skipped _ _ Hn). cbn [bind].
      rewrite build_url_text by done. cbn [bind].
      rewrite show_url by (by apply text_shown_url). eauto.
  - intros Hn. unfold script. destruct (decide (signing w)) as [[Hu Hne]|Hns].
    + unfold sign_params. apply truthy_nonempty in Hne as Ht. rewrite Hu, Ht.
      cbn [andb].
      destruct (make_sig (secret w) (assemble_params w now)) as [sig|[]] eqn:Es;
        [|done].
      cbn [bind].
      destruct (build_url _ _ _) as [url|[]] eqn:Eu; [|done]. cbn [bind].
      apply build_url_Ok_shape in Eu as [_ Hurl].
      apply show_url_Raise. intros Hu'%Hurl. apply Hn.
      assert (Hsp : text (secret w) /\ dict_text (assemble_params w now)).
      { unfold make_sig in Es.
        apply bind_Ok in Es as (base & Eb & Es).
        apply bind_Ok in Es as (key & Ek & _). split.
        - apply encode_utf8_text. eauto.
        - apply text_canon_query_inv, encode_utf8_text. eauto. }
      destruct Hsp as [Hsec Hp]. apply assemble_params_text_iff in Hp as [Hs Ho].
      by repeat split.
    + rewrite (sign_params_skipped _ _ Hns). cbn [bind].
      destruct (build_url _ _ _) as [url|[]] eqn:Eu; [|done]. cbn [bind].
      apply build_url_Ok_shape in Eu as [Hp Hurl].
      apply show_url_Raise. intros Hu'%Hurl. apply Hn.
      apply assemble_params_text_iff in Hp as [Hs Ho]. by repeat split.
Qed.

Lemma script_outcome_witness :
  (exists pg, script (Widgets PtSurveyMonkey (lit "9B9GS555") (lit "045") [] true false [0xD800])
                     (Datetime 2024 3 7 9 5 1) = Ok pg)
  /\ script (Widgets PtSurveyMonkey [0xD800] (lit "045") [] true false [])
            (Datetime 2024 3 7 9 5 1) = Raise UnicodeEncodeError.
Proof.
  split.
  - apply (proj1 (script_outcome _ _)). split; [apply text_lit_ascii|].
    split; [constructor|]. split; [|apply text_lit_ascii].
    intros [H _]. discriminate H.
  - apply (proj2 (script_outcome _ _)). intros (_ & _ & _ & H).
    cbn [survey_code] in H. apply Forall_cons in H as [H _].
    vm_compute in H. discriminate H.
Defined.

Lemma isoformat_nonempty now : isoformat_seconds now ++ lit "Z" <> [].
Proof.
  intros E. apply (f_equal length) in E. rewrite length_app in E.
  change (length (lit "Z")) with 1%nat in E. simpl in E. lia.
Qed.

(** X14. The parameters of the final URL: their names are among store_id,
    order_id, ts, sig, in that order and none twice, and no value is the
    empty text (an empty store_id or order_id is left out, not sent
    empty). *)
Theorem final_params_shape (w : widgets) (now : datetime) :
  widgets_text w ->
  exists pg : page,
    script w now = Ok pg
    /\ keys (params pg) `sublist_of` all_names
    /\ dict_wf (params pg)
    /\ Forall (fun kv => str_of (snd kv) <> []) (params pg).
Proof.
  intros Hw. destruct (script_run w now Hw) as (ps & url & Eps & Hps & Eurl & E).
  eexists. split; [exact E|]. cbn [params].
  assert (Hshape : exists sigs,
    ps = assemble_params w now ++ sigs
    /\ (sigs = [] \/ exists sig, sigs = [(lit "sig", VStr sig)] /\ sig <> [])).
  { destruct (decide (signing w)) as [[Hu Hne]|Hn].
    - destruct (sign_params_signed w _ Hu Hne (proj1 (proj2 (proj2 Hw)))
                  (assemble_params_text w now Hw) (assemble_params_no_sig w now))
        as (sig & Hsig & E').
      rewrite E' in Eps. apply Ok_inj in Eps as <-.
      eexists. split; [done|]. right. exists sig. split; [done|].
      unfold make_sig in Hsig.
      apply bind_Ok in Hsig as (base & _ & Hsig).
      apply bind_Ok in Hsig as (key & _ & [= <-]).
      intros E0. apply (f_equal length) in E0.
      unfold HMAC.hexdigest in E0. rewrite hex_length, hmac_digest_length in E0.
      discriminate E0.
    - rewrite (sign_params_skipped _ _ Hn) in Eps. apply Ok_inj in Eps as <-.
      exists []. split; [by rewrite app_nil_r|by left]. }
  destruct Hshape as (sigs & -> & Hsigs).
  rewrite assemble_params_cases.
  pose proof (isoformat_nonempty now) as Hts.
  assert (Hst : truthy (store_id w) = true -> store_id w <> [])
    by apply truthy_nonempty.
  assert (Hor : truthy (order_id w) = true -> order_id w <> [])
    by apply truthy_nonempty.
  destruct Hsigs as [->|(sig & -> & Hsig)];
    destruct (truthy (store_id w)), (truthy (order_id w)), (add_ts w);
    cbn [app]; (split; [|split]);
    try (unfold keys, all_names; cbn [map fst];
         solve [repeat first [apply sublist_nil | apply sublist_skip | apply sublist_cons]]);
    try (unfold dict_wf, keys; cbn [map fst];
         repeat (apply NoDup_cons_2 || apply NoDup_nil_2);
         rewrite ?elem_of_cons, ?elem_of_nil; intros H;
         repeat (destruct H as [H|H]); done);
    repeat (apply Forall_cons_2; [cbn [snd str_of]; auto|]); apply Forall_nil_2.
Qed.

Lemma final_params_shape_witness :
  exists pg : page,
    script (Widgets PtSurveyMonkey (lit "9B9GS555") [] (lit "123456") true true (lit "s"))
           (Datetime 2024 3 7 9 5 1) = Ok pg
    /\ keys (params pg) `sublist_of` all_names.
Proof.
  destruct (final_params_shape
              (Widgets PtSurveyMonkey (lit "9B9GS555") [] (lit "123456") true true (lit "s"))
              (Datetime 2024 3 7 9 5 1)) as (pg & E & H & _).
  - repeat split; apply text_lit_ascii || constructor.
  - exists pg. split; [exact E|exact H].
Defined.

(** X15. The domain and the survey code never reach the parameters: two
    states of the widgets (of well-formed text, so that both runs end)
    that agree on store_id, order_id, the timestamp
    box, the signing box and the secret end, at the same time, with the
    same parameters, signature included. The signature does not bind the
    survey a link points to. *)
Theorem params_ignore_domain_and_code (w w' : widgets) (now : datetime) :
  widgets_text w -> text (survey_code w') -> same_fields w w' ->
  exists pg pg' : page,
    script w now = Ok pg /\ script w' now = Ok pg'
    /\ params pg = params pg'
    /\ dict_get (params pg) (lit "sig") = dict_get (params pg') (lit "sig").
Proof.
  intros Hw Hc' (E1 & E2 & E3 & E4 & E5).
  assert (Hw' : widgets_text w').
  { destruct Hw as (Hs & Ho & Hsec & _). unfold widgets_text.
    by rewrite <- E1, <- E2, <- E5. }
  destruct (script_run w now Hw) as (ps & url & Eps & _ & _ & E).
  destruct (script_run w' now Hw') as (ps' & url' & Eps' & _ & _ & E').
  assert (Ea : assemble_params w' now = assemble_params w now).
  { unfold assemble_params. by rewrite <- E1, <- E2, <- E3. }
  assert (Es : sign_params w' (assemble_params w' now)
               = sign_params w (assemble_params w now)).
  { rewrite Ea. unfold sign_params. by rewrite <- E4, <- E5. }
  rewrite Es, Eps in Eps'. apply Ok_inj in Eps' as <-.
  eexists. eexists. split; [exact E|]. split; [exact E'|]. done.
Qed.

Lemma params_ignore_domain_and_code_witness :
  exists pg pg' : page,
    script (Widgets PtSurveyMonkey (lit "9B9GS555") (lit "045") [] false true (lit "s"))
           (Datetime 2024 3 7 9 5 1) = Ok pg
    /\ script (Widgets WwwSurveyMonkey (lit "OTHER") (lit "045") [] false true (lit "s"))
              (Datetime 2024 3 7 9 5 1) = Ok pg'
    /\ params pg = params pg'.
Proof.
  destruct (params_ignore_domain_and_code
              (Widgets PtSurveyMonkey (lit "9B9GS555") (lit "045") [] false true (lit "s"))
              (Widgets WwwSurveyMonkey (lit "OTHER") (lit "045") [] false true (lit "s"))
              (Datetime 2024 3 7 9 5 1)) as (pg & pg' & E & E' & H & _).
  - repeat split; apply text_lit_ascii || constructor.
  - apply text_lit_ascii.
  - by repeat split.
  - exists pg, pg'. by repeat split.
Defined.

Lemma key_lt_tuple_le k1 k2 v1 v2 :
  str_compare k1 k2 = Lt -> tuple_le (k1, v1) (k2, v2).
Proof.
  intros H. unfold tuple_le, tuple_leb, tuple_compare. cbn [fst snd]. by rewrite H.
Qed.

(** X16. The message the script signs lists order_id first, then
    store_id, then ts, each only when present, whatever the order in which
    the script stored them: that is the string a verifier has to
    rebuild. *)
Theorem signed_message_format (w : widgets) (now : datetime) :
  canon_query (assemble_params w now)
  = join (lit "&")
      ((if truthy (order_id w) then [lit "order_id=" ++ order_id w] else [])
       ++ (if truthy (store_id w) then [lit "store_id=" ++ store_id w] else [])
       ++ (if add_ts w then [lit "ts=" ++ isoformat_seconds now ++ lit "Z"] else [])).
Proof.
  rewrite assemble_params_cases. unfold canon_query.
  set (s := store_id w). set (o := order_id w).
  set (t := isoformat_seconds now ++ lit "Z").
  assert (Hos : forall a b, tuple_le (lit "order_id", a) (lit "store_id", b))
    by (intros; by apply key_lt_tuple_le).
  assert (Hot : forall a b, tuple_le (lit "order_id", a) (lit "ts", b))
    by (intros; by apply key_lt_tuple_le).
  assert (Hst : forall a b, tuple_le (lit "store_id", a) (lit "ts", b))
    by (intros; by apply key_lt_tuple_le).
  assert (E : sorted (items
      ((if truthy s then [(lit "store_id", VStr s)] else [])
       ++ (if truthy o then [(lit "order_id", VStr o)] else [])
       ++ (if add_ts w then [(lit "ts", VStr t)] else [])))
    = (if truthy o then [(lit "order_id", o)] else [])
      ++ (if truthy s then [(lit "store_id", s)] else [])
      ++ (if add_ts w then [(lit "ts", t)] else [])).
  { apply sorted_unique.
    - destruct (truthy s), (truthy o), (add_ts w); cbn [app items map fst snd str_of];
        try reflexivity; try apply Permutation_swap.
    - destruct (truthy s), (truthy o), (add_ts w); cbn [app];
        repeat (apply SSorted_cons; [|repeat (apply Forall_cons_2; [auto|]); apply Forall_nil_2]);
        apply SSorted_nil. }
  rewrite E. f_equal.
  destruct (truthy s), (truthy o), (add_ts w); reflexivity.
Qed.

Lemma normalization_invariants_witness :
  isspace 0x61 = false /\ isspace 0x62 = false.
Proof.
  split.
  - apply (proj1 (proj2 normalization_invariants) (lit " ab ") 0x61 (lit "b")).
    vm_compute. reflexivity.
  - apply (proj1 (proj2 (proj2 normalization_invariants)) (lit " ab ") 0x62 (lit "a")).
    vm_compute. reflexivity.
Defined.
